(** * A/B-test statistics helpers ([scripts/util.py]): model and properties

    The Python module is a collection of small numeric functions.  Its
    floating-point scalars are modelled by the real numbers of the
    Standard Library; an operation that raises [ZeroDivisionError] or
    produces [nan]/[inf] in Python has no real value and is modelled by
    [None] in the option monad.  The random shuffle of
    [get_bernouli_series] is modelled by state passing over a tape of
    random draws. *)

From Stdlib Require Import String Reals Lra Psatz Lia ZArith List Permutation.
From Stdlib Require Import IndefiniteDescription ClassicalDescription.
From ExtLib Require Import Structures.Monad Structures.MonadState
  Data.Monads.OptionMonad Data.Monads.StateMonad.
Import ListNotations.
Import MonadNotation.

Local Open Scope R_scope.
Local Open Scope monad_scope.

(** ** Python arithmetic on scalars *)

Module Py.

(** [x / y]: true division; a zero divisor raises (scalars) or yields
    [inf]/[nan] (numpy scalars). *)
Definition div (x y : R) : option R :=
  if Req_dec_T y 0 then None else Some (x / y).

(** [np.sqrt x]: [nan] on a negative argument. *)
Definition np_sqrt (x : R) : option R :=
  if Rlt_dec x 0 then None else Some (sqrt x).

(** [x ** 2] *)
Definition sq (x : R) : R := x ^ 2.

End Py.

(** ** The standard normal distribution ([scipy.stats.norm]) *)

Module Normal.

(** Integrand of the standard normal density, without its
    normalising constant. *)
Definition gauss (t : R) : R := exp (- (t * t) / 2).

Definition gauss_integrable (a b : R) : Riemann_integrable gauss a b.
Proof.
  assert (C : forall x : R, continuity_pt gauss x)
    by (intro x; unfold gauss; reg).
  destruct (Rle_dec a b) as [Hab|Hab].
  - exact (continuity_implies_RiemannInt Hab (fun x _ => C x)).
  - apply RiemannInt_P1.
    exact (continuity_implies_RiemannInt
             (Rlt_le _ _ (Rnot_le_lt _ _ Hab)) (fun x _ => C x)).
Defined.

(** [gauss_int x] is the integral of [gauss] from [0] to [x]. *)
Definition gauss_int (x : R) : R := RiemannInt (gauss_integrable 0 x).

(** Modelled from the spec: [scipy.stats.norm] is an external library;
    the spec calls its [cdf] the standard normal distribution function
    Phi. *)
Definition cdf (x : R) : R := / 2 + gauss_int x / sqrt (2 * PI).

(** Modelled from the spec: [norm().sf(z)], "the upper-tail survival
    probability [1 - Phi(z)] of the standard normal at [z]". *)
Definition sf (z : R) : R := 1 - cdf z.

(** Modelled from the spec: [norm().ppf(p)], "the inverse CDF (quantile
    function) of the standard normal": the point where the
    distribution function takes the value [p].  Where there is none
    (scipy answers [nan] or an infinity) the result is [None]. *)
Definition ppf (p : R) : option R :=
  match excluded_middle_informative (exists z, cdf z = p) with
  | left H => Some (proj1_sig (constructive_indefinite_description _ H))
  | right _ => None
  end.

(** A frozen distribution object [scs.norm(loc, scale)]. *)
Record dist : Type := norm { loc : R; scale : R }.

(** *** Polynomials that enclose the integral

    [exp_term k u] is the term [(- u) ^ k / k!] of the series of
    [exp (- u)], [exp_poly n u] its partial sum up to [n];
    [int_term k x] is the integral from [0] to [x] of
    [exp_term k (t * t / 2)], and [int_poly n x] the partial sum. *)

Fixpoint exp_term (k : nat) (u : R) : R :=
  match k with
  | O => 1
  | S j => exp_term j u * (- u) / INR (S j)
  end.

Fixpoint exp_poly (n : nat) (u : R) : R :=
  match n with
  | O => 1
  | S j => exp_poly j u + exp_term (S j) u
  end.

Definition int_term (k : nat) (x : R) : R :=
  exp_term k (x * x / 2) * x / INR (2 * k + 1).

Fixpoint int_poly (n : nat) (x : R) : R :=
  match n with
  | O => int_term 0 x
  | S j => int_poly j x + int_term (S j) x
  end.

End Normal.

(** ** The functions of [scripts/util.py] *)

Module Util.

Import Normal.

Definition pooled_prob (N_A N_B X_A X_B : R) : option R :=
  Py.div (X_A + X_B) (N_A + N_B).

Definition pooled_SE (N_A N_B X_A X_B : R) : option R :=
  p_hat <- pooled_prob N_A N_B X_A X_B ;;
  ia <- Py.div 1 N_A ;;
  ib <- Py.div 1 N_B ;;
  Py.np_sqrt (p_hat * (1 - p_hat) * (ia + ib)).

Definition z_val (sig_level : R) (two_tailed : bool) : option R :=
  let area :=
    if two_tailed then
      let sig_level := sig_level / 2 in
      1 - sig_level
    else 1 - sig_level in
  ppf area.

(** [confidence_interval] (lines 20-28); [z_val] is called with its
    default [two_tailed=True], and the quotient [z * sample_std /
    np.sqrt(sample_size)] is computed once for each bound. *)
Definition confidence_interval
  (sample_mean sample_std sample_size sig_level : R) : option (R * R) :=
  z <- z_val sig_level true ;;
  root <- Py.np_sqrt sample_size ;;
  half <- Py.div (z * sample_std) root ;;
  let left := sample_mean - half in
  root' <- Py.np_sqrt sample_size ;;
  half' <- Py.div (z * sample_std) root' ;;
  let right := sample_mean + half' in
  ret (left, right).

(** Python exceptions the module can raise by itself. *)
Inductive exn : Type := UnboundLocalError.

Definition ab_dist (stderr d_hat : R) (group_type : string) : exn + dist :=
  let sample_mean :=
    if String.eqb group_type "control" then Some 0
    else if String.eqb group_type "test" then Some d_hat
    else None in
  match sample_mean with
  | Some m => inr (norm m stderr)
  | None => inl UnboundLocalError
  end.

(** First definition of [min_sample_size] (lines 66-99). *)
Definition min_sample_size_first (bcr mde power sig_level : R) : option R :=
  Z_beta <- ppf power ;;
  Z_alpha <- ppf (1 - sig_level / 2) ;;
  let pooled_prob := (bcr + bcr + mde) / 2 in
  Py.div (2 * pooled_prob * (1 - pooled_prob) * Py.sq (Z_beta + Z_alpha))
         (Py.sq mde).

(** [p_val] (lines 102-107).  A run in which a quotient by zero or a
    [nan] occurs is given no value here, also where Python would carry
    an infinity on to a later operation. *)
Definition p_val (N_A N_B p_A d_hat : R) : option R :=
  va <- Py.div (p_A * (1 - p_A)) N_A ;;
  std_a <- Py.np_sqrt va ;;
  vb <- Py.div ((p_A + d_hat) * (1 - (p_A + d_hat))) N_B ;;
  std_b <- Py.np_sqrt vb ;;
  den <- Py.np_sqrt (Py.sq std_a + Py.sq std_b) ;;
  z_score <- Py.div d_hat den ;;
  ret (sf z_score).

(** Second definition of [min_sample_size] (lines 110-116), the one
    bound to the name once the module is loaded. *)
Definition min_sample_size (bcr mde power sig_level : R) : option R :=
  Z_beta <- ppf power ;;
  Z_alpha <- ppf (1 - sig_level / 2) ;;
  let pooled_prob := (bcr + bcr + mde) / 2 in
  Py.div (2 * pooled_prob * (1 - pooled_prob) * Py.sq (Z_beta + Z_alpha))
         (Py.sq mde).

End Util.

(** ** The trial-series synthesizer *)

Module Series.

Local Open Scope Z_scope.

(** The entropy source: the raw draws the generator will hand out, in
    order.  An exhausted tape keeps answering [0]. *)
Definition tape : Type := list nat.

Definition rand : Type -> Type := state tape.

(** [random._randbelow n]: some integer in [range(n)]. *)
Definition randbelow (n : nat) : rand nat :=
  t <- get ;;
  put (tl t) ;;
  ret (Nat.modulo (hd 0%nat t) n).

(** [x[i] = v] on a list. *)
Fixpoint setitem (x : list Z) (i : nat) (v : Z) : list Z :=
  match x, i with
  | [], _ => []
  | _ :: x', O => v :: x'
  | a :: x', S i' => a :: setitem x' i' v
  end.

(** [x[i], x[j] = x[j], x[i]] *)
Definition swap (x : list Z) (i j : nat) : list Z :=
  let xj := nth j x 0 in
  let xi := nth i x 0 in
  setitem (setitem x i xj) j xi.

(** The loop of [random.shuffle]: [for i in reversed(range(1, n + 1))]. *)
Fixpoint shuffle_loop (n : nat) (x : list Z) : rand (list Z) :=
  match n with
  | O => ret x
  | S n' =>
      j <- randbelow (S n) ;;
      shuffle_loop n' (swap x n j)
  end.

(** [random.shuffle x] (Fisher-Yates), returning the list it leaves
    in place. *)
Definition shuffle (x : list Z) : rand (list Z) :=
  shuffle_loop (length x - 1)%nat x.

(** [n * [v]]: the empty list when [n <= 0]. *)
Definition list_mul (n : Z) (v : Z) : list Z := repeat v (Z.to_nat n).

(** The body of the [for] loop over [zip(engagment_list, success_list)]. *)
Fixpoint series_loop (pairs : list (Z * Z)) (bernouli_series : list Z)
  : rand (list Z) :=
  match pairs with
  | [] => ret bernouli_series
  | (engagment, success) :: rest =>
      let no_list := list_mul (engagment - success) 0 in
      let yes_list := list_mul success 1 in
      let series_item := yes_list ++ no_list in
      series_item <- shuffle series_item ;;
      series_loop rest (bernouli_series ++ series_item)
  end.

Definition get_bernouli_series (engagment_list success_list : list Z)
  : rand (list Z) :=
  series_loop (combine engagment_list success_list) [].

(** Number of entries equal to [1]. *)
Definition ones (l : list Z) : Z := Z.of_nat (count_occ Z.eq_dec l 1).

Definition zsum (l : list Z) : Z := fold_right Z.add 0 l.

(** The slice [l[a : a + n]]. *)
Definition slice (l : list Z) (a n : Z) : list Z :=
  firstn (Z.to_nat n) (skipn (Z.to_nat a) l).

(** Number of entries equal to [0]. *)
Definition zeros (l : list Z) : Z := Z.of_nat (count_occ Z.eq_dec l 0).

(** A period [(engagement, success)] of the data model: the successes
    are counted among the engagements. *)
Definition valid_period (es : Z * Z) : Prop := 0 <= snd es <= fst es.

(** The outcomes of one period before they are shuffled. *)
Definition period_block (es : Z * Z) : list Z :=
  list_mul (snd es) 1 ++ list_mul (fst es - snd es) 0.

(** [bl] lists, period by period, a rearrangement of each period's
    outcomes. *)
Definition shuffled_periods (bl : list (list Z)) (pairs : list (Z * Z)) :=
  Forall2 (fun b es => Permutation (period_block es) b) bl pairs.

End Series.

(** ** The standard normal distribution: analysis *)

Module NormalFacts.

Import Normal.

(** *** The integral and its derivative *)

Lemma gauss_continuous : continuity gauss.
Proof. unfold gauss. intro x. reg. Qed.

Lemma gauss_int_0 : gauss_int 0 = 0.
Proof. unfold gauss_int. apply RiemannInt_P9. Qed.

Lemma gauss_int_chasles a b :
  gauss_int b - gauss_int a = RiemannInt (gauss_integrable a b).
Proof.
  unfold gauss_int.
  rewrite <- (RiemannInt_P26 (gauss_integrable 0 a) (gauss_integrable a b)
                (gauss_integrable 0 b)).
  ring.
Qed.

(** The fundamental theorem of calculus for [gauss_int]: around [x] it
    differs by a constant from the primitive of [gauss] on
    [[x - 1, x + 1]]. *)
Lemma gauss_int_derivable_pt_lim x : derivable_pt_lim gauss_int x (gauss x).
Proof.
  assert (h : x - 1 <= x + 1) by lra.
  pose (C0 := fun (y : R) (_ : x - 1 <= y <= x + 1) => gauss_continuous y).
  assert (HP : derivable_pt_lim (primitive h (FTC_P1 h C0)) x (gauss x)).
  { apply RiemannInt_P27. lra. }
  assert (E : forall y, x - 1 <= y <= x + 1 ->
                primitive h (FTC_P1 h C0) y = gauss_int y - gauss_int (x - 1)).
  { intros y [Hy1 Hy2]. unfold primitive.
    destruct (Rle_dec (x - 1) y) as [r|]; [|contradiction].
    destruct (Rle_dec y (x + 1)) as [r0|]; [|contradiction].
    rewrite gauss_int_chasles. apply RiemannInt_P5. }
  intros eps Heps. destruct (HP eps Heps) as [delta Hd].
  assert (Hm : 0 < Rmin delta 1).
  { apply Rmin_glb_lt; [apply cond_pos | lra]. }
  exists (mkposreal _ Hm). intros k Hk0 Hk. cbn in Hk.
  assert (Hk1 : Rabs k < 1).
  { eapply Rlt_le_trans; [exact Hk | apply Rmin_r]. }
  assert (Hkd : Rabs k < delta).
  { eapply Rlt_le_trans; [exact Hk | apply Rmin_l]. }
  apply Rabs_def2 in Hk1.
  specialize (Hd k Hk0 Hkd).
  rewrite !E in Hd by lra.
  replace (gauss_int (x + k) - gauss_int x)
    with (gauss_int (x + k) - gauss_int (x - 1)
          - (gauss_int x - gauss_int (x - 1))) by ring.
  exact Hd.
Qed.

(** *** Derivatives of the enclosing polynomials *)

Lemma dlim_ext f g x l :
  (forall y, f y = g y) -> derivable_pt_lim f x l -> derivable_pt_lim g x l.
Proof.
  intros E H eps He. destruct (H eps He) as [d Hd]. exists d.
  intros h Hh Hd'. rewrite <- !E. now apply Hd.
Qed.

Lemma dlim_val f x l l' :
  l = l' -> derivable_pt_lim f x l -> derivable_pt_lim f x l'.
Proof. now intros ->. Qed.

Lemma dlim_neg x : derivable_pt_lim (fun u => - u) x (- 1).
Proof.
  apply (dlim_ext (- id)%F); [reflexivity|].
  apply derivable_pt_lim_opp, derivable_pt_lim_id.
Qed.

Lemma exp_term_S j u : exp_term j u * (- u) = INR (S j) * exp_term (S j) u.
Proof.
  cbn [exp_term]. field. apply not_0_INR. discriminate.
Qed.

Lemma dlim_exp_term j u :
  derivable_pt_lim (exp_term (S j)) u (- exp_term j u).
Proof.
  induction j as [|j IH].
  - apply (dlim_ext (fun u => - u)); [intros; cbn; field|].
    apply (dlim_val _ _ (- 1)); [cbn; ring | apply dlim_neg].
  - apply (dlim_ext (mult_real_fct (/ INR (S (S j)))
                       (exp_term (S j) * (fun u => (- u)%R))%F)).
    { intros y. unfold mult_real_fct, mult_fct.
      cbn [exp_term]. field. split; apply not_0_INR; discriminate. }
    eapply dlim_val;
      [| apply derivable_pt_lim_scal, derivable_pt_lim_mult;
         [exact IH | apply dlim_neg]].
    cbv beta.
    replace (- exp_term j u * - u) with (- (exp_term j u * - u)) by ring.
    rewrite exp_term_S. rewrite (S_INR (S j)). field.
    rewrite <- S_INR. apply not_0_INR. discriminate.
Qed.

Lemma dlim_exp_poly n u :
  derivable_pt_lim (exp_poly (S n)) u (- exp_poly n u).
Proof.
  induction n as [|n IH].
  - apply (dlim_ext (fct_cte 1 + exp_term 1)%F); [reflexivity|].
    apply (dlim_val _ _ (0 + - exp_term 0 u)); [cbn; ring|].
    apply derivable_pt_lim_plus;
      [apply derivable_pt_lim_const | apply dlim_exp_term].
  - apply (dlim_ext (exp_poly (S n) + exp_term (S (S n)))%F);
      [reflexivity|].
    apply (dlim_val _ _ (- exp_poly n u + - exp_term (S n) u));
      [cbn [exp_poly]; ring|].
    apply derivable_pt_lim_plus; [exact IH | apply dlim_exp_term].
Qed.

(** *** Taylor enclosures

    A function that starts at [0] and has a nonnegative derivative on
    the nonnegative half-line is nonnegative there. *)
Lemma nonneg_from_zero (f f' : R -> R) :
  (forall c, 0 <= c -> derivable_pt_lim f c (f' c)) ->
  (forall c, 0 <= c -> 0 <= f' c) ->
  f 0 = 0 -> forall x, 0 <= x -> 0 <= f x.
Proof.
  intros Hd Hp H0 x [Hx|Hx]; [|subst x; lra].
  destruct (MVT_cor2 f f' 0 x Hx) as (c & E & Hc).
  - intros c Hc. apply Hd, Hc.
  - assert (0 <= f' c) by (apply Hp; lra).
    assert (0 <= f' c * (x - 0)) by (apply Rmult_le_pos; lra).
    lra.
Qed.

Lemma dlim_exp_neg u : derivable_pt_lim (fun u => exp (- u)) u (- exp (- u)).
Proof.
  apply (dlim_ext (comp exp (fun u => - u))); [reflexivity|].
  apply (dlim_val _ _ (exp (- u) * - 1)); [ring|].
  apply derivable_pt_lim_comp; [apply dlim_neg | apply derivable_pt_lim_exp].
Qed.

Lemma exp_poly_0 n : exp_poly n 0 = 1.
Proof.
  induction n as [|n IH]; [reflexivity|].
  cbn [exp_poly exp_term]. rewrite IH. unfold Rdiv. ring.
Qed.

(** The partial sums of the exponential series at [- u] alternately
    exceed and fall short of [exp (- u)]. *)
Lemma exp_neg_taylor n :
  forall u, 0 <= u -> 0 <= (- 1) ^ n * (exp_poly n u - exp (- u)).
Proof.
  induction n as [|n IH]; intros u Hu.
  - cbn. assert (exp (- u) <= 1).
    { rewrite <- exp_0. destruct Hu as [Hu|<-].
      - left. apply exp_increasing. lra.
      - rewrite Ropp_0. lra. }
    lra.
  - apply (nonneg_from_zero
             (fun u => (- 1) ^ S n * (exp_poly (S n) u - exp (- u)))
             (fun u => (- 1) ^ n * (exp_poly n u - exp (- u)))); auto.
    + intros c Hc.
      apply (dlim_ext (mult_real_fct ((- 1) ^ S n)
               (exp_poly (S n) - (fun u => exp (- u)%R))%F)); [reflexivity|].
      apply (dlim_val _ _ ((- 1) ^ S n * (- exp_poly n c - - exp (- c))));
        [cbn [pow]; ring|].
      apply derivable_pt_lim_scal, derivable_pt_lim_minus;
        [apply dlim_exp_poly | apply dlim_exp_neg].
    + rewrite exp_poly_0, Ropp_0, exp_0. ring.
Qed.

Lemma gauss_alt x : gauss x = exp (- (x * x / 2)).
Proof. unfold gauss. f_equal. field. Qed.

Lemma gauss_pos x : 0 < gauss x.
Proof. apply exp_pos. Qed.

Lemma gauss_even x : gauss (- x) = gauss x.
Proof. unfold gauss. f_equal. field. Qed.

Lemma dlim_half_sq x : derivable_pt_lim (fun x => x * x / 2) x x.
Proof.
  apply (dlim_ext (mult_real_fct (/ 2) (id * id)%F)).
  { intros y. unfold mult_real_fct, mult_fct, id. field. }
  apply (dlim_val _ _ (/ 2 * (1 * id x + id x * 1)));
    [unfold id; field|].
  apply derivable_pt_lim_scal, derivable_pt_lim_mult;
    apply derivable_pt_lim_id.
Qed.

Lemma dlim_int_term k x :
  derivable_pt_lim (int_term k) x (exp_term k (x * x / 2)).
Proof.
  destruct k as [|j].
  - apply (dlim_ext id); [intros; unfold int_term, id; cbn; field|].
    apply derivable_pt_lim_id.
  - assert (N : INR (2 * S j + 1) <> 0) by (apply not_0_INR; lia).
    apply (dlim_ext (mult_real_fct (/ INR (2 * S j + 1))
             (comp (exp_term (S j)) (fun x => (x * x / 2)%R) * id)%F)).
    { intros y. unfold mult_real_fct, mult_fct, comp, id, int_term.
      now field. }
    eapply dlim_val;
      [| apply derivable_pt_lim_scal, derivable_pt_lim_mult;
         [apply derivable_pt_lim_comp;
            [apply dlim_half_sq | apply dlim_exp_term]
         | apply derivable_pt_lim_id]].
    unfold comp, id.
    replace (- exp_term j (x * x / 2) * x * x)
      with (2 * (exp_term j (x * x / 2) * - (x * x / 2))) by field.
    rewrite exp_term_S.
    replace (INR (2 * S j + 1)) with (2 * INR (S j) + 1) in *.
    + now field.
    + rewrite plus_INR, mult_INR. cbn. ring.
Qed.

Lemma dlim_int_poly n x :
  derivable_pt_lim (int_poly n) x (exp_poly n (x * x / 2)).
Proof.
  induction n as [|n IH].
  - apply (dlim_val _ _ (exp_term 0 (x * x / 2))); [reflexivity|].
    apply (dlim_int_term 0).
  - apply (dlim_ext (int_poly n + int_term (S n))%F); [reflexivity|].
    apply derivable_pt_lim_plus; [exact IH | apply dlim_int_term].
Qed.

Lemma int_poly_0 n : int_poly n 0 = 0.
Proof.
  assert (T : forall k, int_term k 0 = 0).
  { intros k. unfold int_term, Rdiv. ring. }
  induction n as [|n IH]; cbn [int_poly]; rewrite ?IH, T; ring.
Qed.

(** The partial sums of the series of the integral alternately
    exceed and fall short of it on the nonnegative half-line. *)
Lemma gauss_int_taylor n x :
  0 <= x -> 0 <= (- 1) ^ n * (int_poly n x - gauss_int x).
Proof.
  apply (nonneg_from_zero
           (fun x => (- 1) ^ n * (int_poly n x - gauss_int x))
           (fun x => (- 1) ^ n * (exp_poly n (x * x / 2) - gauss x))).
  - intros c _.
    apply (dlim_ext (mult_real_fct ((- 1) ^ n) (int_poly n - gauss_int)%F));
      [reflexivity|].
    apply derivable_pt_lim_scal, derivable_pt_lim_minus;
      [apply dlim_int_poly | apply gauss_int_derivable_pt_lim].
  - intros c _. rewrite gauss_alt. apply exp_neg_taylor.
    apply Rmult_le_pos; [apply Rle_0_sqr | lra].
  - rewrite int_poly_0, gauss_int_0. ring.
Qed.

(** *** Shape of the integral *)

Lemma gauss_int_increasing x y : x < y -> gauss_int x < gauss_int y.
Proof.
  intros H.
  destruct (MVT_cor2 gauss_int gauss x y H) as (c & E & _).
  - intros c _. apply gauss_int_derivable_pt_lim.
  - pose proof (gauss_pos c).
    assert (0 < gauss c * (y - x)) by (apply Rmult_lt_0_compat; lra).
    lra.
Qed.

Lemma gauss_int_odd x : gauss_int (- x) = - gauss_int x.
Proof.
  set (h := fun x => gauss_int x + gauss_int (- x)).
  assert (D : forall c, derivable_pt_lim h c ((fun _ => 0) c)).
  { intros c.
    apply (dlim_ext (gauss_int + comp gauss_int (fun x => (- x)%R))%F);
      [reflexivity|].
    apply (dlim_val _ _ (gauss c + gauss (- c) * - 1));
      [rewrite gauss_even; ring|].
    apply derivable_pt_lim_plus; [apply gauss_int_derivable_pt_lim|].
    apply derivable_pt_lim_comp;
      [apply dlim_neg | apply gauss_int_derivable_pt_lim]. }
  assert (H0 : h 0 = 0).
  { unfold h. rewrite Ropp_0, gauss_int_0. ring. }
  assert (Hx : h x = 0).
  { destruct (Rtotal_order 0 x) as [L|[<-|L]]; [|exact H0|].
    - destruct (MVT_cor2 h (fun _ => 0) 0 x L) as (c & E & _);
        [intros; apply D | lra].
    - destruct (MVT_cor2 h (fun _ => 0) x 0 L) as (c & E & _);
        [intros; apply D | lra]. }
  unfold h in Hx. lra.
Qed.

Lemma gauss_int_continuous : continuity gauss_int.
Proof.
  intros x. apply derivable_continuous_pt.
  exists (gauss x). apply gauss_int_derivable_pt_lim.
Qed.

(** *** The normalising constant *)

Lemma PI_bounds : 314159 / 100000 < PI < 314160 / 100000.
Proof.
  pose proof (PI_2_3_7_ineq 2) as [L U].
  unfold sum_f_R0, tg_alt, PI_2_3_7_tg, Ratan_seq in L, U.
  cbn in L, U. lra.
Qed.

Lemma sqrt_2PI_bounds : 250662 / 100000 < sqrt (2 * PI) < 250664 / 100000.
Proof.
  pose proof PI_bounds as [L U].
  split.
  - rewrite <- (sqrt_pow2 (250662 / 100000)) by lra.
    apply sqrt_lt_1; lra.
  - rewrite <- (sqrt_pow2 (250664 / 100000)) by lra.
    apply sqrt_lt_1; lra.
Qed.


(** *** The distribution function *)

Lemma sqrt_2PI_pos : 0 < sqrt (2 * PI).
Proof. pose proof sqrt_2PI_bounds. lra. Qed.

Lemma cdf_0 : cdf 0 = / 2.
Proof. unfold cdf. rewrite gauss_int_0. unfold Rdiv. ring. Qed.

Lemma sf_0 : sf 0 = / 2.
Proof. unfold sf. rewrite cdf_0. lra. Qed.

Lemma cdf_increasing x y : x < y -> cdf x < cdf y.
Proof.
  intros H. unfold cdf, Rdiv.
  pose proof (gauss_int_increasing x y H).
  pose proof (Rinv_0_lt_compat _ sqrt_2PI_pos).
  nra.
Qed.

Lemma cdf_injective x y : cdf x = cdf y -> x = y.
Proof.
  intros E. destruct (Rtotal_order x y) as [L|[L|L]]; [|exact L|];
    apply cdf_increasing in L; lra.
Qed.

Lemma cdf_opp x : cdf (- x) = 1 - cdf x.
Proof. unfold cdf. rewrite gauss_int_odd. unfold Rdiv. lra. Qed.

Lemma cdf_continuous : continuity cdf.
Proof.
  intros x. unfold cdf.
  apply (continuity_pt_plus (fct_cte (/ 2))
           (gauss_int / fct_cte (sqrt (2 * PI)))%F).
  - apply continuity_pt_const. intros ? ?. reflexivity.
  - apply continuity_pt_div.
    + apply gauss_int_continuous.
    + apply continuity_pt_const. intros ? ?. reflexivity.
    + unfold fct_cte. pose proof sqrt_2PI_pos. lra.
Qed.

(** *** The quantile function *)

Lemma ppf_unique p z : cdf z = p -> ppf p = Some z.
Proof.
  intros E. unfold ppf.
  destruct (excluded_middle_informative (exists z, cdf z = p)) as [H|H].
  - destruct (constructive_indefinite_description _ H) as [z' E'].
    cbn. f_equal. apply cdf_injective. congruence.
  - exfalso. apply H. now exists z.
Qed.

Lemma ppf_cdf z : ppf (cdf z) = Some z.
Proof. now apply ppf_unique. Qed.

Lemma cdf_ppf p z : ppf p = Some z -> cdf z = p.
Proof.
  unfold ppf.
  destruct (excluded_middle_informative (exists z, cdf z = p)) as [H|H];
    [|discriminate].
  destruct (constructive_indefinite_description _ H) as [z' E'].
  cbn. now intros [= <-].
Qed.

Lemma ppf_none p : ppf p = None -> forall z, cdf z <> p.
Proof.
  intros N z E. rewrite (ppf_unique p z E) in N. discriminate.
Qed.

(** A probability enclosed by the distribution function at [a] and
    [b] has its quantile between [a] and [b]. *)
Lemma ppf_between a b p :
  cdf a < p < cdf b -> exists z, ppf p = Some z /\ a < z < b.
Proof.
  intros [Ha Hb].
  assert (Hab : a < b).
  { destruct (Rlt_le_dec a b) as [L|[L|L]]; [exact L| |].
    - apply cdf_increasing in L. lra.
    - subst. lra. }
  destruct (IVT (fun x => cdf x - p) a b) as (z & Hz & E).
  - intros x. apply (continuity_pt_minus cdf (fct_cte p)).
    + apply cdf_continuous.
    + apply continuity_pt_const. intros ? ?. reflexivity.
  - exact Hab.
  - lra.
  - lra.
  - assert (E' : cdf z = p) by lra.
    exists z. split; [now apply ppf_unique|].
    split.
    + destruct (Rlt_le_dec a z) as [L|L]; [exact L|].
      assert (z = a) by lra. subst. lra.
    + destruct (Rlt_le_dec z b) as [L|L]; [exact L|].
      assert (z = b) by lra. subst. lra.
Qed.

Lemma ppf_opp p z : ppf p = Some z -> ppf (1 - p) = Some (- z).
Proof.
  intros E. apply cdf_ppf in E. apply ppf_unique.
  rewrite cdf_opp. lra.
Qed.

Lemma ppf_half : ppf (/ 2) = Some 0.
Proof. apply ppf_unique, cdf_0. Qed.

(** *** Enclosures of the distribution function at positive points *)

Lemma div_lt_l n d q : 0 < d -> n < q * d -> n / d < q.
Proof.
  intros Hd H. apply Rmult_lt_reg_r with d; [exact Hd|].
  replace (n / d * d) with n by (field; lra). exact H.
Qed.

Lemma div_gt_l n d q : 0 < d -> q * d < n -> q < n / d.
Proof.
  intros Hd H. apply Rmult_lt_reg_r with d; [exact Hd|].
  replace (n / d * d) with n by (field; lra). exact H.
Qed.

Lemma cdf_upper n x q :
  0 <= x -> int_poly (2 * n) x < q * (250662 / 100000) ->
  cdf x < / 2 + q.
Proof.
  intros Hx Hq. pose proof (gauss_int_taylor (2 * n) x Hx) as T.
  rewrite pow_1_even in T.
  pose proof sqrt_2PI_bounds as [L U].
  assert (G : 0 <= gauss_int x).
  { destruct Hx as [Hx|<-]; [|rewrite gauss_int_0; lra].
    apply gauss_int_increasing in Hx. rewrite gauss_int_0 in Hx. lra. }
  unfold cdf. apply Rplus_lt_compat_l.
  assert (0 <= q) by nra.
  apply div_lt_l; [lra | nra].
Qed.

Lemma cdf_lower n x q :
  0 <= x -> 0 <= q -> q * (250664 / 100000) < int_poly (2 * n + 1) x ->
  / 2 + q < cdf x.
Proof.
  intros Hx Hq0 Hq. pose proof (gauss_int_taylor (2 * n + 1) x Hx) as T.
  replace (2 * n + 1)%nat with (S (2 * n)) in T by lia.
  rewrite <- tech_pow_Rmult, pow_1_even in T.
  replace (2 * n + 1)%nat with (S (2 * n)) in Hq by lia.
  pose proof sqrt_2PI_bounds as [L U].
  unfold cdf. apply Rplus_lt_compat_l.
  apply div_gt_l; [lra | nra].
Qed.

(** *** The quantiles the module asks for *)

Ltac eval_int_poly :=
  unfold int_poly, int_term, exp_term;
  cbn -[Rmult Rplus Rdiv Ropp Rinv]; lra.

Lemma ppf_975 :
  exists z, ppf (975 / 1000) = Some z /\
            195896 / 100000 < z < 196096 / 100000.
Proof.
  apply ppf_between. replace (975 / 1000) with (/ 2 + 475 / 1000) by lra.
  split.
  - apply (cdf_upper 4); [lra | eval_int_poly].
  - apply (cdf_lower 4); [lra | lra | eval_int_poly].
Qed.

Lemma ppf_950 :
  exists z, ppf (95 / 100) = Some z /\
            164385 / 100000 < z < 164585 / 100000.
Proof.
  apply ppf_between. replace (95 / 100) with (/ 2 + 45 / 100) by lra.
  split.
  - apply (cdf_upper 3); [lra | eval_int_poly].
  - apply (cdf_lower 3); [lra | lra | eval_int_poly].
Qed.

Lemma ppf_800 :
  exists z, ppf (4 / 5) = Some z /\ 84 / 100 < z < 85 / 100.
Proof.
  apply ppf_between. replace (4 / 5) with (/ 2 + 3 / 10) by lra.
  split.
  - apply (cdf_upper 3); [lra | eval_int_poly].
  - apply (cdf_lower 3); [lra | lra | eval_int_poly].
Qed.

Lemma ppf_750 : exists z, ppf (3 / 4) = Some z /\ 0 < z < 1.
Proof.
  apply ppf_between. split.
  - rewrite cdf_0. lra.
  - replace (3 / 4) with (/ 2 + 1 / 4) by lra.
    apply (cdf_lower 0); [lra | lra | eval_int_poly].
Qed.

End NormalFacts.

(** ** Properties of the trial-series synthesizer *)

Module SeriesFacts.

Import Series.
Local Open Scope Z_scope.

(** *** Running the random monad *)

Lemma run_randbelow (n : nat) (t : tape) :
  runState (randbelow n) t = (Nat.modulo (hd 0%nat t) n, tl t).
Proof. reflexivity. Qed.

Lemma run_shuffle_loop_S (n : nat) (x : list Z) (t : tape) :
  runState (shuffle_loop (S n) x) t =
  runState (shuffle_loop n (swap x (S n) (Nat.modulo (hd 0%nat t) (S (S n)))))
           (tl t).
Proof. reflexivity. Qed.

Lemma run_series_loop_cons (e s : Z) rest acc (t : tape) :
  runState (series_loop ((e, s) :: rest) acc) t =
  let r := runState (shuffle (list_mul s 1 ++ list_mul (e - s) 0)) t in
  runState (series_loop rest (acc ++ fst r)) (snd r).
Proof.
  cbn [series_loop]. cbn.
  destruct (runState (shuffle _) t); reflexivity.
Qed.

(** *** Item assignment and the exchange step *)

Lemma setitem_length x : forall i v, length (setitem x i v) = length x.
Proof.
  induction x as [|a x IH]; intros [|i] v; cbn; auto.
Qed.

Lemma setitem_app x y a v :
  setitem (x ++ a :: y) (length x) v = x ++ v :: y.
Proof.
  induction x as [|b x IH]; cbn; [reflexivity | now rewrite IH].
Qed.

Lemma setitem_same x : forall i, setitem x i (nth i x 0) = x.
Proof.
  induction x as [|a x IH]; intros [|i]; cbn; auto.
  now rewrite IH.
Qed.

Lemma nth_middle_Z (x y : list Z) a : nth (length x) (x ++ a :: y) 0 = a.
Proof. induction x; cbn; auto. Qed.

Lemma swap_length x i j : length (swap x i j) = length x.
Proof. unfold swap. now rewrite !setitem_length. Qed.

(** Exchanging the items at positions [i < j]. *)
Lemma swap_lt x i j :
  (i < j < length x)%nat ->
  exists l1 a l2 b l3,
    x = l1 ++ a :: l2 ++ b :: l3 /\
    swap x i j = l1 ++ b :: l2 ++ a :: l3 /\
    swap x j i = l1 ++ b :: l2 ++ a :: l3.
Proof.
  intros [Hij Hj].
  destruct (nth_split x 0 Hj) as (m & l3 & Hx & Hm).
  assert (Hi : (i < length m)%nat) by lia.
  destruct (nth_split m 0 Hi) as (l1 & l2 & Hm' & Hl1).
  set (a := nth i m 0) in *. set (b := nth j x 0) in *.
  exists l1, a, l2, b, l3.
  assert (E : x = l1 ++ a :: l2 ++ b :: l3).
  { rewrite Hx, Hm'. now rewrite <- app_assoc. }
  assert (Ei : nth i x 0 = a).
  { rewrite E, <- Hl1. apply nth_middle_Z. }
  assert (Lj : j = length (l1 ++ a :: l2)).
  { rewrite <- Hm'. auto. }
  assert (Lj' : j = length (l1 ++ b :: l2)).
  { rewrite Lj, !length_app. reflexivity. }
  split; [exact E|].
  unfold swap. fold b. rewrite Ei.
  split.
  - rewrite E at 1. rewrite <- Hl1 at 1. rewrite setitem_app.
    replace (l1 ++ b :: l2 ++ b :: l3) with ((l1 ++ b :: l2) ++ b :: l3)
      by (now rewrite <- app_assoc).
    rewrite Lj' at 1. rewrite setitem_app. now rewrite <- app_assoc.
  - rewrite E at 1.
    replace (l1 ++ a :: l2 ++ b :: l3) with ((l1 ++ a :: l2) ++ b :: l3)
      by (now rewrite <- app_assoc).
    rewrite Lj at 1. rewrite setitem_app. rewrite <- app_assoc. cbn.
    rewrite <- Hl1. now rewrite setitem_app.
Qed.

Lemma swap_Permutation x i j :
  (i < length x)%nat -> (j < length x)%nat -> Permutation x (swap x i j).
Proof.
  intros Hi Hj.
  assert (P : forall (l1 l2 l3 : list Z) a b,
             Permutation (l1 ++ a :: l2 ++ b :: l3) (l1 ++ b :: l2 ++ a :: l3)).
  { intros. apply Permutation_app_head.
    transitivity (a :: b :: l2 ++ l3).
    - constructor. symmetry. apply Permutation_middle.
    - transitivity (b :: a :: l2 ++ l3); [constructor|].
      constructor. apply Permutation_middle. }
  destruct (Nat.lt_trichotomy i j) as [H|[H|H]].
  - destruct (swap_lt x i j) as (l1 & a & l2 & b & l3 & E & E1 & _); [lia|].
    rewrite E1, E. apply P.
  - subst j. unfold swap. now rewrite !setitem_same.
  - destruct (swap_lt x j i) as (l1 & a & l2 & b & l3 & E & _ & E2); [lia|].
    rewrite E2, E. apply P.
Qed.

(** *** The shuffle permutes its argument, whatever the draws *)

Lemma shuffle_loop_Permutation n :
  forall x t, (n < length x)%nat ->
    Permutation x (fst (runState (shuffle_loop n x) t)).
Proof.
  induction n as [|n IH]; intros x t Hn.
  - reflexivity.
  - rewrite run_shuffle_loop_S.
    assert (Hj : (Nat.modulo (hd 0%nat t) (S (S n)) < S (S n))%nat)
      by (apply Nat.mod_upper_bound; lia).
    transitivity (swap x (S n) (Nat.modulo (hd 0%nat t) (S (S n)))).
    + apply swap_Permutation; lia.
    + apply IH. rewrite swap_length. lia.
Qed.

Lemma shuffle_Permutation x t :
  Permutation x (fst (runState (shuffle x) t)).
Proof.
  unfold shuffle. destruct x as [|a x]; [reflexivity|].
  apply shuffle_loop_Permutation. cbn. lia.
Qed.

(** *** The series is the concatenation of the shuffled periods *)

Lemma series_loop_blocks pairs :
  forall acc t, exists bl,
    fst (runState (series_loop pairs acc) t) = acc ++ concat bl /\
    shuffled_periods bl pairs.
Proof.
  induction pairs as [|[e s] rest IH]; intros acc t.
  - exists []. split; [cbn; now rewrite app_nil_r | constructor].
  - rewrite run_series_loop_cons. cbv zeta.
    set (r := runState (shuffle _) t).
    destruct (IH (acc ++ fst r) (snd r)) as (bl & E & F).
    exists (fst r :: bl). split.
    + rewrite E. cbn. now rewrite app_assoc.
    + constructor; [|exact F]. apply shuffle_Permutation.
Qed.

Lemma ones_app x y : ones (x ++ y) = ones x + ones y.
Proof. unfold ones. rewrite count_occ_app. lia. Qed.

Lemma ones_Permutation x y : Permutation x y -> ones x = ones y.
Proof.
  intros H. unfold ones. f_equal.
  now apply (Permutation_count_occ Z.eq_dec).
Qed.

Lemma ones_period_block es : 0 <= snd es -> ones (period_block es) = snd es.
Proof.
  intros H. unfold period_block, list_mul. rewrite ones_app. unfold ones.
  rewrite count_occ_repeat_eq by reflexivity.
  rewrite count_occ_repeat_neq by discriminate. lia.
Qed.

Lemma length_period_block es :
  valid_period es -> length (period_block es) = Z.to_nat (fst es).
Proof.
  intros [H1 H2]. unfold period_block, list_mul.
  rewrite length_app, !repeat_length. lia.
Qed.

Lemma bits_period_block es :
  Forall (fun v => v = 0 \/ v = 1) (period_block es).
Proof.
  unfold period_block, list_mul. apply Forall_app. split;
    apply Forall_forall; intros v Hv; apply repeat_spec in Hv; auto.
Qed.

Lemma zsum_nonneg l : Forall (fun v => 0 <= v) l -> 0 <= zsum l.
Proof.
  induction 1; cbn; [lia | unfold zsum in *; lia].
Qed.

Lemma periods_bits bl pairs :
  shuffled_periods bl pairs -> Forall (fun v => v = 0 \/ v = 1) (concat bl).
Proof.
  induction 1 as [|b es bl' pairs' Hb _ IH]; cbn; [constructor|].
  apply Forall_app. split; [|exact IH].
  eapply Permutation_Forall; [exact Hb | apply bits_period_block].
Qed.

Lemma periods_length bl pairs :
  shuffled_periods bl pairs -> Forall valid_period pairs ->
  Z.of_nat (length (concat bl)) = zsum (map fst pairs).
Proof.
  induction 1 as [|b es bl' pairs' Hb _ IH]; intros Hvalid; cbn;
    [reflexivity|].
  inversion Hvalid as [|? ? Hes Hrest]; subst.
  rewrite length_app, Nat2Z.inj_add, (IH Hrest).
  rewrite <- (Permutation_length Hb), length_period_block by exact Hes.
  destruct Hes. unfold zsum. lia.
Qed.

Lemma periods_ones bl pairs :
  shuffled_periods bl pairs -> Forall valid_period pairs ->
  ones (concat bl) = zsum (map snd pairs).
Proof.
  induction 1 as [|b es bl' pairs' Hb _ IH]; intros Hvalid; cbn;
    [reflexivity|].
  inversion Hvalid as [|? ? Hes Hrest]; subst.
  rewrite ones_app, (IH Hrest), <- (ones_Permutation _ _ Hb).
  rewrite ones_period_block; [reflexivity | apply Hes].
Qed.

Lemma periods_slice bl pairs :
  shuffled_periods bl pairs -> Forall valid_period pairs ->
  forall i, (i < length pairs)%nat ->
    slice (concat bl) (zsum (map fst (firstn i pairs)))
          (fst (nth i pairs (0, 0))) = nth i bl [].
Proof.
  induction 1 as [|b es bl' pairs' Hb _ IH]; intros Hvalid i Hi;
    [cbn in Hi; lia|].
  inversion Hvalid as [|? ? Hes Hrest]; subst.
  assert (Lb : length b = Z.to_nat (fst es)).
  { rewrite <- (Permutation_length Hb). now apply length_period_block. }
  destruct i as [|i]; unfold slice; cbn.
  - rewrite <- Lb, firstn_app, Nat.sub_diag, firstn_all. cbn.
    apply app_nil_r.
  - assert (N : 0 <= zsum (map fst (firstn i pairs'))).
    { apply zsum_nonneg, Forall_map.
      apply Forall_forall. intros es' Hin.
      assert (Hin' : In es' pairs').
      { rewrite <- (firstn_skipn i pairs'). apply in_or_app. now left. }
      rewrite Forall_forall in Hrest. apply Hrest in Hin'.
      destruct Hin'. lia. }
    fold (zsum (map fst (firstn i pairs'))).
    destruct Hes as [Hes1 Hes2].
    rewrite Z2Nat.inj_add by lia.
    rewrite <- Lb, skipn_app, skipn_all2 by lia.
    replace (length b + _ - length b)%nat
      with (Z.to_nat (zsum (map fst (firstn i pairs')))) by lia.
    cbn [app]. apply (IH Hrest). cbn in Hi. lia.
Qed.

(** *** What [zip] keeps of the two count lists *)

Lemma map_fst_combine (e s : list Z) :
  map fst (combine e s) = firstn (Nat.min (length e) (length s)) e.
Proof.
  revert s. induction e as [|a e IH]; intros [|b s]; cbn; auto.
  now rewrite IH.
Qed.

Lemma map_snd_combine (e s : list Z) :
  map snd (combine e s) = firstn (Nat.min (length e) (length s)) s.
Proof.
  revert s. induction e as [|a e IH]; intros [|b s]; cbn; auto.
  now rewrite IH.
Qed.

Lemma combine_truncate (e s : list Z) :
  let n := Nat.min (length e) (length s) in
  combine e s = combine (firstn n e) (firstn n s).
Proof.
  revert s. induction e as [|a e IH]; intros [|b s]; cbn; auto.
  now rewrite <- IH.
Qed.

Lemma valid_combine (e s : list Z) :
  Forall2 (fun ei si => 0 <= si <= ei) e s ->
  Forall valid_period (combine e s).
Proof.
  induction 1; cbn; constructor; auto.
Qed.

(** C2: for equal-length count lists with [0 <= success <= engagement]
    in every period, and for every tape of random draws, the series is
    made of 0s and 1s, its length is the sum of the engagement counts,
    it holds as many 1s as the sum of the success counts, the slice of
    period [i] holds [success_list[i]] ones, and the series is the
    concatenation, in index order, of a rearrangement of each period's
    own outcomes. *)
Theorem get_bernouli_series_counts (e s : list Z) (t : tape) :
  length e = length s ->
  Forall2 (fun ei si => 0 <= si <= ei) e s ->
  let out := evalState (get_bernouli_series e s) t in
  Forall (fun v => v = 0 \/ v = 1) out /\
  Z.of_nat (length out) = zsum e /\
  ones out = zsum s /\
  (forall i, (i < length e)%nat ->
     ones (slice out (zsum (firstn i e)) (nth i e 0)) = nth i s 0) /\
  (exists bl, out = concat bl /\ shuffled_periods bl (combine e s)).
Proof.
  intros Hlen Hval out.
  destruct (series_loop_blocks (combine e s) [] t) as (bl & E & Hbl).
  assert (Eout : out = concat bl) by exact E. clearbody out.
  pose proof (valid_combine _ _ Hval) as Hv.
  assert (Hfst : map fst (combine e s) = e).
  { rewrite map_fst_combine, <- Hlen, Nat.min_id. apply firstn_all. }
  assert (Hsnd : map snd (combine e s) = s).
  { rewrite map_snd_combine, Hlen, Nat.min_id. apply firstn_all. }
  subst out. repeat split.
  - now apply periods_bits with (pairs := combine e s).
  - rewrite (periods_length _ _ Hbl Hv). now rewrite Hfst.
  - rewrite (periods_ones _ _ Hbl Hv). now rewrite Hsnd.
  - intros i Hi.
    assert (Hi' : (i < length (combine e s))%nat)
      by (rewrite length_combine; lia).
    pose proof (periods_slice _ _ Hbl Hv i Hi') as Hs.
    rewrite combine_nth in Hs by exact Hlen. cbn [fst] in Hs.
    rewrite <- firstn_map, Hfst in Hs. rewrite Hs.
    assert (Hnth : Permutation (period_block (nth i (combine e s) (0, 0)))
                               (nth i bl [])).
    { clear -Hbl Hi'. revert i Hi'.
      induction Hbl as [|b es bl' pairs' Hb _ IH]; intros [|i] Hi';
        cbn in *; try lia; [exact Hb | apply IH; lia]. }
    rewrite <- (ones_Permutation _ _ Hnth), ones_period_block.
    + now rewrite combine_nth by exact Hlen.
    + rewrite Forall_forall in Hv. apply Hv, nth_In, Hi'.
  - exists bl. split; [reflexivity | exact Hbl].
Qed.

Lemma get_bernouli_series_counts_witness :
  let out := evalState (get_bernouli_series [10; 10] [3; 7]) [3; 1; 4]%nat in
  Forall (fun v => v = 0 \/ v = 1) out /\
  Z.of_nat (length out) = 20 /\
  ones out = 10 /\
  (forall i, (i < 2)%nat ->
     ones (slice out (zsum (firstn i [10; 10])) (nth i [10; 10] 0))
     = nth i [3; 7] 0) /\
  (exists bl, out = concat bl /\
              shuffled_periods bl (combine [10; 10] [3; 7])).
Proof.
  apply (get_bernouli_series_counts [10; 10] [3; 7] [3; 1; 4]%nat).
  - reflexivity.
  - repeat constructor; lia.
Defined.

End SeriesFacts.

(** ** Properties of the numeric helpers *)

Module UtilFacts.

Import Normal Util.

Lemma div_some x y : y <> 0 -> Py.div x y = Some (x / y).
Proof. intros H. unfold Py.div. now destruct (Req_dec_T y 0). Qed.

Lemma div_none x y : y = 0 -> Py.div x y = None.
Proof. intros H. unfold Py.div. now destruct (Req_dec_T y 0). Qed.

Lemma np_sqrt_some x : 0 <= x -> Py.np_sqrt x = Some (sqrt x).
Proof. intros H. unfold Py.np_sqrt. destruct (Rlt_dec x 0); [lra | easy]. Qed.

Lemma ratio_unit n d : 0 < d -> 0 <= n <= d -> 0 <= n / d <= 1.
Proof.
  intros Hd [H0 H1]. unfold Rdiv.
  assert (Hi : 0 < / d) by now apply Rinv_0_lt_compat.
  assert (E : d * / d = 1) by (apply Rinv_r; lra).
  split; nra.
Qed.

(** C3: [pooled_prob] is the quotient of the total successes by the
    total size when that size is not zero; for valid samples it lies
    in the unit interval; on [(1000, 1000, 100, 120)] it is [0.11];
    and it has no value when the total size is zero. *)
Theorem pooled_prob_spec :
  (forall N_A N_B X_A X_B, N_A + N_B <> 0 ->
     pooled_prob N_A N_B X_A X_B = Some ((X_A + X_B) / (N_A + N_B))) /\
  (forall N_A N_B X_A X_B,
     0 < N_A -> 0 < N_B -> 0 <= X_A <= N_A -> 0 <= X_B <= N_B ->
     exists p, pooled_prob N_A N_B X_A X_B = Some p /\ 0 <= p <= 1) /\
  pooled_prob 1000 1000 100 120 = Some (11 / 100) /\
  (forall N_A N_B X_A X_B, N_A + N_B = 0 ->
     pooled_prob N_A N_B X_A X_B = None).
Proof.
  split; [|split; [|split]].
  - intros. now apply div_some.
  - intros N_A N_B X_A X_B HA HB HXA HXB.
    exists ((X_A + X_B) / (N_A + N_B)). split.
    + apply div_some. lra.
    + apply ratio_unit; lra.
  - unfold pooled_prob. rewrite div_some by lra. f_equal. lra.
  - intros. now apply div_none.
Qed.

Lemma pooled_prob_spec_witness :
  pooled_prob 300 200 30 45 = Some ((30 + 45) / (300 + 200)) /\
  (exists p, pooled_prob 300 200 30 45 = Some p /\ 0 <= p <= 1) /\
  pooled_prob 5 (-5) 1 1 = None.
Proof.
  destruct pooled_prob_spec as (H1 & H2 & _ & H4).
  split; [apply H1; lra|].
  split; [apply H2; lra|].
  apply H4. lra.
Defined.

(** C9: exchanging the two samples leaves [pooled_SE] unchanged. *)
Theorem pooled_SE_swap (N_A N_B X_A X_B : R) :
  pooled_SE N_A N_B X_A X_B = pooled_SE N_B N_A X_B X_A.
Proof.
  unfold pooled_SE, pooled_prob.
  rewrite (Rplus_comm X_B X_A), (Rplus_comm N_B N_A).
  destruct (Py.div (X_A + X_B) (N_A + N_B)) as [p|]; cbn; [|reflexivity].
  destruct (Py.div 1 N_A) as [ia|], (Py.div 1 N_B) as [ib|]; cbn;
    try reflexivity.
  now rewrite (Rplus_comm ib ia).
Qed.

(** For valid samples [pooled_SE] has a value, the one of the formula. *)
Lemma pooled_SE_value (N_A N_B X_A X_B : R) :
  0 < N_A -> 0 < N_B -> 0 <= X_A <= N_A -> 0 <= X_B <= N_B ->
  let p_hat := (X_A + X_B) / (N_A + N_B) in
  pooled_SE N_A N_B X_A X_B
    = Some (sqrt (p_hat * (1 - p_hat) * (1 / N_A + 1 / N_B))).
Proof.
  intros HA HB HXA HXB p_hat. unfold pooled_SE, pooled_prob.
  rewrite !div_some by lra. cbn. fold p_hat.
  apply np_sqrt_some.
  assert (0 <= p_hat <= 1).
  { unfold p_hat. apply ratio_unit; lra. }
  assert (0 < 1 / N_A) by (apply Rdiv_lt_0_compat; lra).
  assert (0 < 1 / N_B) by (apply Rdiv_lt_0_compat; lra).
  apply Rmult_le_pos; [apply Rmult_le_pos|]; lra.
Qed.

(** C1: with [mde <> 0], [min_sample_size] is the formula of the
    sample-size planner, where [Z_beta] is the quantile at [power] and
    [Z_alpha] the quantile at [1 - sig_level / 2]; and it has no value
    at [mde = 0]. *)
Theorem min_sample_size_formula :
  (forall bcr mde power sig_level Z_beta Z_alpha,
     mde <> 0 ->
     ppf power = Some Z_beta ->
     ppf (1 - sig_level / 2) = Some Z_alpha ->
     let pooledP := (bcr + (bcr + mde)) / 2 in
     min_sample_size bcr mde power sig_level
       = Some (2 * pooledP * (1 - pooledP) * (Z_beta + Z_alpha) ^ 2
               / mde ^ 2)) /\
  (forall bcr power sig_level,
     min_sample_size bcr 0 power sig_level = None).
Proof.
  split.
  - intros bcr mde power sig_level Z_beta Z_alpha Hmde Hb Ha pooledP.
    unfold min_sample_size, Py.sq. rewrite Hb, Ha. cbn [bind Monad_option].
    rewrite div_some by (apply pow_nonzero, Hmde).
    unfold pooledP. f_equal.
    replace (bcr + bcr + mde) with (bcr + (bcr + mde)) by lra.
    reflexivity.
  - intros. unfold min_sample_size.
    destruct (ppf power); [|reflexivity].
    destruct (ppf (1 - sig_level / 2)); [|reflexivity].
    cbn [bind Monad_option]. apply div_none. unfold Py.sq. lra.
Qed.

Lemma min_sample_size_formula_witness :
  exists Z_beta Z_alpha,
    ppf (4 / 5) = Some Z_beta /\ ppf (975 / 1000) = Some Z_alpha /\
    min_sample_size (1 / 10) (1 / 50) (4 / 5) (1 / 20)
      = Some (2 * ((1 / 10 + (1 / 10 + 1 / 50)) / 2)
              * (1 - (1 / 10 + (1 / 10 + 1 / 50)) / 2)
              * (Z_beta + Z_alpha) ^ 2 / (1 / 50) ^ 2).
Proof.
  destruct NormalFacts.ppf_800 as (zb & Hb & _).
  destruct NormalFacts.ppf_975 as (za & Ha & _).
  exists zb, za. split; [exact Hb|]. split; [exact Ha|].
  apply (proj1 min_sample_size_formula); [lra | exact Hb |].
  replace (1 - 1 / 20 / 2) with (975 / 1000) by lra. exact Ha.
Defined.

(** C4: the two definitions of [min_sample_size] in the module agree
    on every input. *)
Theorem min_sample_size_definitions_agree (bcr mde power sig_level : R) :
  min_sample_size_first bcr mde power sig_level
    = min_sample_size bcr mde power sig_level.
Proof. reflexivity. Qed.

(** C5: [ab_dist] centres the normal distribution at [0] for the
    control group and at [d_hat] for the test group, with standard
    deviation [stderr]; any other group type makes the call fail on
    the unbound [sample_mean]. *)
Theorem ab_dist_spec (stderr d_hat : R) :
  ab_dist stderr d_hat "control" = inr (norm 0 stderr) /\
  ab_dist stderr d_hat "test" = inr (norm d_hat stderr) /\
  (forall group_type : string,
     group_type <> "control"%string -> group_type <> "test"%string ->
     ab_dist stderr d_hat group_type = inl UnboundLocalError).
Proof.
  repeat split.
  intros g Hc Ht. unfold ab_dist.
  apply String.eqb_neq in Hc, Ht. now rewrite Hc, Ht.
Qed.

Lemma ab_dist_spec_witness :
  ab_dist (1 / 100) (1 / 50) "Control" = inl UnboundLocalError.
Proof.
  apply (proj2 (proj2 (ab_dist_spec (1 / 100) (1 / 50)))); discriminate.
Defined.

(** C6: with a zero effect, positive sample sizes and a baseline rate
    strictly between 0 and 1, the z-score is [0] and [p_val] is the
    survival probability of the standard normal at [0], one half. *)
Theorem p_val_zero_effect (N_A N_B p_A : R) :
  0 < N_A -> 0 < N_B -> 0 < p_A < 1 ->
  p_val N_A N_B p_A 0 = Some (sf 0) /\ sf 0 = 1 / 2.
Proof.
  intros HA HB Hp. split; [|rewrite NormalFacts.sf_0; lra].
  assert (Hv : 0 < p_A * (1 - p_A)) by (apply Rmult_lt_0_compat; lra).
  assert (Ha : 0 < p_A * (1 - p_A) / N_A)
    by now apply Rdiv_lt_0_compat.
  assert (Hb : 0 < (p_A + 0) * (1 - (p_A + 0)) / N_B).
  { rewrite Rplus_0_r. now apply Rdiv_lt_0_compat. }
  unfold p_val.
  rewrite (div_some _ N_A) by lra. cbn [bind Monad_option].
  rewrite np_sqrt_some by lra.
  rewrite (div_some _ N_B) by lra.
  rewrite np_sqrt_some by lra.
  apply sqrt_lt_R0 in Ha, Hb.
  set (std_a := sqrt (p_A * (1 - p_A) / N_A)) in *.
  set (std_b := sqrt ((p_A + 0) * (1 - (p_A + 0)) / N_B)) in *.
  assert (Hs : 0 < Py.sq std_a + Py.sq std_b) by (unfold Py.sq; nra).
  rewrite np_sqrt_some by lra. apply sqrt_lt_R0 in Hs.
  rewrite div_some by lra. cbn [ret].
  now rewrite Rdiv_0_l.
Qed.

Lemma p_val_zero_effect_witness :
  p_val 1000 1000 (1 / 10) 0 = Some (sf 0) /\ sf 0 = 1 / 2.
Proof.
  apply (p_val_zero_effect 1000 1000 (1 / 10)); lra.
Defined.

(** C8: [z_val] is the quantile at [1 - sig_level / 2] for a
    two-tailed test and at [1 - sig_level] for a one-tailed one; at
    [0.05] and [0.10], two-tailed, it lies within [1e-3] of [1.95996]
    and of [1.64485]. *)
Theorem z_val_spec :
  (forall sig_level, z_val sig_level true = ppf (1 - sig_level / 2)) /\
  (forall sig_level, z_val sig_level false = ppf (1 - sig_level)) /\
  (exists z, z_val (5 / 100) true = Some z /\
             cdf z = 1 - 5 / 100 / 2 /\
             Rabs (z - 195996 / 100000) < 1 / 1000) /\
  (exists z, z_val (10 / 100) true = Some z /\
             cdf z = 1 - 10 / 100 / 2 /\
             Rabs (z - 164485 / 100000) < 1 / 1000).
Proof.
  split; [reflexivity|]. split; [reflexivity|]. unfold z_val. split.
  - replace (1 - 5 / 100 / 2) with (975 / 1000) by lra.
    destruct NormalFacts.ppf_975 as (z & E & B). exists z.
    split; [exact E|]. split; [now apply NormalFacts.cdf_ppf|].
    apply Rabs_def1; lra.
  - replace (1 - 10 / 100 / 2) with (95 / 100) by lra.
    destruct NormalFacts.ppf_950 as (z & E & B). exists z.
    split; [exact E|]. split; [now apply NormalFacts.cdf_ppf|].
    apply Rabs_def1; lra.
Qed.

Lemma min_sample_size_value (bcr mde power sig_level Z_beta Z_alpha : R) :
  mde <> 0 ->
  ppf power = Some Z_beta -> ppf (1 - sig_level / 2) = Some Z_alpha ->
  min_sample_size bcr mde power sig_level
    = Some (2 * ((bcr + bcr + mde) / 2) * (1 - (bcr + bcr + mde) / 2)
            * (Z_beta + Z_alpha) ^ 2 / mde ^ 2).
Proof.
  intros Hmde Hb Ha. unfold min_sample_size, Py.sq.
  rewrite Hb, Ha. cbn [bind Monad_option].
  now rewrite div_some by (apply pow_nonzero, Hmde).
Qed.

(** The quantiles of [p] and [1 - p] cancel, so [min_sample_size] is
    [0] for every nonzero effect when [power = sig_level / 2]. *)
Lemma min_sample_size_degenerate (bcr mde : R) :
  mde <> 0 -> min_sample_size bcr mde (1 / 4) (1 / 2) = Some 0.
Proof.
  intros Hm. destruct NormalFacts.ppf_750 as (z & E & _).
  assert (E' : ppf (1 / 4) = Some (- z)).
  { replace (1 / 4) with (1 - 3 / 4) by lra. now apply NormalFacts.ppf_opp. }
  rewrite (min_sample_size_value _ _ _ _ (- z) z Hm E').
  - f_equal. unfold Rdiv. ring.
  - replace (1 - 1 / 2 / 2) with (3 / 4) by lra. exact E.
Qed.

(** C7 as stated fails: at [power = 0.25] and [sig_level = 0.5] the
    two quantiles cancel and doubling the effect leaves the sample
    size unchanged. *)
Lemma min_sample_size_not_strictly_decreasing :
  exists n1 n2,
    min_sample_size (1 / 10) (1 / 50) (1 / 4) (1 / 2) = Some n1 /\
    min_sample_size (1 / 10) (1 / 25) (1 / 4) (1 / 2) = Some n2 /\
    ~ n2 < n1.
Proof.
  exists 0, 0. repeat split.
  - apply min_sample_size_degenerate. lra.
  - apply min_sample_size_degenerate. lra.
  - lra.
Qed.

Lemma planner_ratio_decreasing (b m1 m2 : R) :
  0 < b -> 0 < m1 < m2 -> b + m2 < 1 ->
  let p1 := (b + b + m1) / 2 in
  let p2 := (b + b + m2) / 2 in
  p2 * (1 - p2) / m2 ^ 2 < p1 * (1 - p1) / m1 ^ 2.
Proof.
  intros Hb [H1 H12] H2 p1 p2.
  assert (Q1 : 0 < m1 ^ 2) by (apply pow_lt; lra).
  assert (Q2 : 0 < m2 ^ 2) by (apply pow_lt; lra).
  apply Rlt_0_minus.
  replace (p1 * (1 - p1) / m1 ^ 2 - p2 * (1 - p2) / m2 ^ 2)
    with ((m2 - m1) * (b * (1 - b) * (m1 + m2) + (1 - 2 * b) * (m1 * m2) / 2)
          / (m1 ^ 2 * m2 ^ 2))
    by (unfold p1, p2; field; lra).
  apply Rdiv_lt_0_compat; [|apply Rmult_lt_0_compat; assumption].
  apply Rmult_lt_0_compat; [lra|].
  assert (0 < m1 * m2) by (apply Rmult_lt_0_compat; lra).
  destruct (Rle_lt_dec (2 * b) 1) as [L|L].
  - assert (0 < b * (1 - b) * (m1 + m2)).
    { apply Rmult_lt_0_compat; [apply Rmult_lt_0_compat|]; lra. }
    assert (0 <= (1 - 2 * b) * (m1 * m2)) by (apply Rmult_le_pos; lra).
    lra.
  - assert (A : b * (1 - b) * m1 < b * (1 - b) * (m1 + m2)).
    { apply Rmult_lt_compat_l; [apply Rmult_lt_0_compat|]; lra. }
    assert (B0 : 0 < m1 * (1 - b) - m1 * m2).
    { apply Rlt_0_minus. apply Rmult_lt_compat_l; lra. }
    assert (B : 0 < (2 * b - 1) * (m1 * (1 - b) - m1 * m2))
      by (apply Rmult_lt_0_compat; lra).
    assert (C : 0 < m1 * (1 - b)) by (apply Rmult_lt_0_compat; lra).
    nra.
Qed.

(** C7, amended: when the two quantiles do not cancel,
    [min_sample_size] strictly decreases as the positive effect
    grows, for a baseline rate and a test rate strictly between 0 and
    1; and it takes the same value at [(bcr, mde)] and at
    [(bcr + mde, - mde)]. *)
Theorem min_sample_size_monotone_symmetric :
  (forall bcr power sig_level m1 m2 Z_beta Z_alpha,
     0 < bcr -> 0 < m1 < m2 -> bcr + m2 < 1 ->
     ppf power = Some Z_beta ->
     ppf (1 - sig_level / 2) = Some Z_alpha ->
     Z_beta + Z_alpha <> 0 ->
     exists n1 n2,
       min_sample_size bcr m1 power sig_level = Some n1 /\
       min_sample_size bcr m2 power sig_level = Some n2 /\
       n2 < n1) /\
  (forall bcr mde power sig_level,
     min_sample_size bcr mde power sig_level
       = min_sample_size (bcr + mde) (- mde) power sig_level).
Proof.
  split.
  - intros bcr power sig_level m1 m2 Z_beta Z_alpha Hb Hm H1 Eb Ea HZ.
    pose proof (planner_ratio_decreasing bcr m1 m2 Hb Hm H1) as D.
    cbv zeta in D.
    rewrite (min_sample_size_value _ m1 _ _ _ _ ltac:(lra) Eb Ea).
    rewrite (min_sample_size_value _ m2 _ _ _ _ ltac:(lra) Eb Ea).
    eexists. eexists. split; [reflexivity|]. split; [reflexivity|].
    set (K := (Z_beta + Z_alpha) ^ 2).
    assert (HK : 0 < K).
    { unfold K. rewrite <- Rsqr_pow2. apply Rsqr_pos_lt, HZ. }
    unfold Rdiv in *. nra.
  - intros bcr mde power sig_level. unfold min_sample_size, Py.sq.
    replace (bcr + mde + (bcr + mde) + - mde) with (bcr + bcr + mde) by ring.
    replace ((- mde) ^ 2) with (mde ^ 2) by ring. reflexivity.
Qed.

Lemma min_sample_size_monotone_symmetric_witness :
  exists n1 n2,
    min_sample_size (1 / 10) (1 / 50) (4 / 5) (1 / 20) = Some n1 /\
    min_sample_size (1 / 10) (1 / 25) (4 / 5) (1 / 20) = Some n2 /\
    n2 < n1.
Proof.
  destruct NormalFacts.ppf_800 as (zb & Hb & Bb).
  destruct NormalFacts.ppf_975 as (za & Ha & Ba).
  apply (proj1 min_sample_size_monotone_symmetric) with zb za;
    try lra; [exact Hb|].
  replace (1 - 1 / 20 / 2) with (975 / 1000) by lra. exact Ha.
Defined.

End UtilFacts.


(** ** Quantiles and critical values *)

Module QuantileFacts.

Import Normal Util NormalFacts.

Lemma cdf_lt_iff x y : cdf x < cdf y <-> x < y.
Proof.
  split; [|apply cdf_increasing].
  intros H. destruct (Rtotal_order x y) as [L|[L|L]]; [exact L| |].
  - subst. lra.
  - apply cdf_increasing in L. lra.
Qed.

Lemma ppf_lt_iff p1 p2 z1 z2 :
  ppf p1 = Some z1 -> ppf p2 = Some z2 -> (p1 < p2 <-> z1 < z2).
Proof.
  intros E1 E2. apply cdf_ppf in E1, E2. subst. apply cdf_lt_iff.
Qed.

Lemma sf_opp z : sf (- z) = 1 - sf z.
Proof. unfold sf. rewrite cdf_opp. ring. Qed.

Lemma sf_lt_iff x y : sf x < sf y <-> y < x.
Proof.
  unfold sf. destruct (cdf_lt_iff y x) as [A B].
  split; intros H; [apply A | apply B in H]; lra.
Qed.

Lemma z_val_05 :
  exists z, z_val (5 / 100) true = Some z /\
            195896 / 100000 < z < 196096 / 100000.
Proof.
  destruct ppf_975 as (z & E & B). exists z. split; [|exact B].
  unfold z_val. replace (1 - 5 / 100 / 2) with (975 / 1000) by lra.
  exact E.
Qed.

Lemma z_val_10 :
  exists z, z_val (10 / 100) true = Some z /\
            164385 / 100000 < z < 164585 / 100000.
Proof.
  destruct ppf_950 as (z & E & B). exists z. split; [|exact B].
  unfold z_val. replace (1 - 10 / 100 / 2) with (95 / 100) by lra.
  exact E.
Qed.

(** The critical value falls as the significance level rises, for
    one-tailed and for two-tailed tests alike. *)
Theorem z_val_decreasing (two_tailed : bool) (sig1 sig2 z1 z2 : R) :
  z_val sig1 two_tailed = Some z1 ->
  z_val sig2 two_tailed = Some z2 ->
  (sig1 < sig2 <-> z2 < z1).
Proof.
  intros E1 E2. unfold z_val in *.
  destruct two_tailed; cbv zeta in E1, E2;
    rewrite <- (ppf_lt_iff _ _ _ _ E2 E1); split; lra.
Qed.

Lemma z_val_decreasing_witness :
  exists z1 z2,
    z_val (5 / 100) true = Some z1 /\ z_val (10 / 100) true = Some z2 /\
    z2 < z1.
Proof.
  destruct z_val_05 as (z1 & H1 & _). destruct z_val_10 as (z2 & H2 & _).
  exists z1, z2. split; [exact H1|]. split; [exact H2|].
  apply (z_val_decreasing true (5 / 100) (10 / 100) z1 z2 H1 H2). lra.
Defined.

(** A two-tailed critical value is positive exactly below significance
    level 1, where it is 0; a one-tailed one exactly below 1/2. *)
Theorem z_val_sign (sig_level z : R) :
  (z_val sig_level true = Some z -> (0 < z <-> sig_level < 1)) /\
  (z_val sig_level false = Some z -> (0 < z <-> sig_level < 1 / 2)) /\
  z_val 1 true = Some 0 /\ z_val (1 / 2) false = Some 0.
Proof.
  assert (H0 : ppf (1 / 2) = Some 0).
  { replace (1 / 2) with (/ 2) by lra. apply ppf_half. }
  unfold z_val. repeat split.
  - intros Hz. apply (ppf_lt_iff _ _ _ _ H0 H) in Hz. lra.
  - intros Hs. apply (ppf_lt_iff _ _ _ _ H0 H). lra.
  - intros Hz. apply (ppf_lt_iff _ _ _ _ H0 H) in Hz. lra.
  - intros Hs. apply (ppf_lt_iff _ _ _ _ H0 H). lra.
  - replace (1 - 1 / 2) with (1 / 2) by lra. exact H0.
  - replace (1 - 1 / 2) with (1 / 2) by lra. exact H0.
Qed.

Lemma z_val_sign_witness :
  exists z, z_val (5 / 100) true = Some z /\ 0 < z.
Proof.
  destruct z_val_05 as (z & H & _).
  exists z. split; [exact H|].
  apply (proj1 (z_val_sign (5 / 100) z) H). lra.
Defined.

(** The one-tailed critical values at [sig_level] and at
    [1 - sig_level] are opposite, and the two-tailed value at
    [sig_level] is the one-tailed value at half the level. *)
Theorem z_val_tails (sig_level z : R) :
  (z_val sig_level false = Some z ->
   z_val (1 - sig_level) false = Some (- z)) /\
  z_val sig_level true = z_val (sig_level / 2) false.
Proof.
  unfold z_val. split; [|reflexivity].
  intros E. apply ppf_opp in E. exact E.
Qed.

Lemma z_val_tails_witness :
  exists z,
    z_val (10 / 100 / 2) false = Some z /\ 164385 / 100000 < z /\
    z_val (1 - 10 / 100 / 2) false = Some (- z).
Proof.
  destruct ppf_950 as (z & E & B).
  assert (H : z_val (10 / 100 / 2) false = Some z).
  { unfold z_val. replace (1 - 10 / 100 / 2) with (95 / 100) by lra.
    exact E. }
  exists z. split; [exact H|]. split; [lra|].
  apply (proj1 (z_val_tails (10 / 100 / 2) z) H).
Defined.

End QuantileFacts.

(** ** Confidence intervals *)

Module IntervalFacts.

Import Normal Util NormalFacts.

Lemma confidence_interval_value m sd n sig z :
  0 < n -> z_val sig true = Some z ->
  confidence_interval m sd n sig
    = Some (m - z * sd / sqrt n, m + z * sd / sqrt n).
Proof.
  intros Hn Hz. unfold confidence_interval. rewrite Hz.
  cbn [bind Monad_option].
  assert (Hs : 0 < sqrt n) by now apply sqrt_lt_R0.
  unfold Py.np_sqrt. destruct (Rlt_dec n 0) as [L|_]; [lra|].
  unfold Py.div. destruct (Req_dec_T (sqrt n) 0) as [E|_]; [lra|].
  reflexivity.
Qed.

Lemma confidence_interval_inv m sd n sig l r :
  confidence_interval m sd n sig = Some (l, r) ->
  0 < n /\ exists z, z_val sig true = Some z /\
                     l = m - z * sd / sqrt n /\ r = m + z * sd / sqrt n.
Proof.
  unfold confidence_interval.
  destruct (z_val sig true) as [z|]; [|discriminate].
  cbn [bind Monad_option]. unfold Py.np_sqrt.
  destruct (Rlt_dec n 0) as [L|L]; [discriminate|].
  unfold Py.div. destruct (Req_dec_T (sqrt n) 0) as [E|E]; [discriminate|].
  cbn. intros [= <- <-].
  split.
  - destruct (Rtotal_order 0 n) as [H|[H|H]]; [exact H| |lra].
    subst n. rewrite sqrt_0 in E. contradiction.
  - exists z. auto.
Qed.

(** Whenever [confidence_interval] returns, the sample size was
    positive and the interval is centred on the sample mean. *)
Theorem confidence_interval_centered (m sd n sig l r : R) :
  confidence_interval m sd n sig = Some (l, r) ->
  0 < n /\ r - m = m - l.
Proof.
  intros H. apply confidence_interval_inv in H.
  destruct H as (Hn & z & _ & -> & ->). split; [exact Hn | ring].
Qed.

Lemma confidence_interval_centered_witness :
  exists l r,
    confidence_interval 10 2 100 (5 / 100) = Some (l, r) /\
    0 < 100 /\ r - 10 = 10 - l.
Proof.
  destruct QuantileFacts.z_val_05 as (z & Hz & _).
  pose proof (confidence_interval_value 10 2 100 (5 / 100) z
                ltac:(lra) Hz) as E.
  eexists. eexists. split; [exact E|].
  apply (confidence_interval_centered 10 2 100 (5 / 100) _ _ E).
Defined.

(** A sample size that is zero or negative leaves the interval without
    a value: the square root is zero (a division by zero) or [nan]. *)
Theorem confidence_interval_fails (m sd n sig : R) :
  n <= 0 -> confidence_interval m sd n sig = None.
Proof.
  intros Hn. destruct (confidence_interval m sd n sig) as [[l r]|] eqn:E;
    [|reflexivity].
  apply confidence_interval_inv in E. lra.
Qed.

Lemma confidence_interval_fails_witness :
  confidence_interval 10 2 0 (5 / 100) = None.
Proof. apply confidence_interval_fails. lra. Defined.

(** At the default significance level 0.05, every positive sample size
    and standard deviation give an interval around the mean whose
    half-width is between 1.95896 and 1.96096 standard errors. *)
Theorem confidence_interval_95 (m sd n : R) :
  0 < n -> 0 < sd ->
  exists l r,
    confidence_interval m sd n (5 / 100) = Some (l, r) /\
    l < m < r /\
    195896 / 100000 * (sd / sqrt n) < r - m < 196096 / 100000 * (sd / sqrt n).
Proof.
  intros Hn Hsd. destruct QuantileFacts.z_val_05 as (z & Hz & B).
  exists (m - z * sd / sqrt n), (m + z * sd / sqrt n).
  split; [now apply confidence_interval_value|].
  assert (Hs : 0 < sqrt n) by now apply sqrt_lt_R0.
  assert (Hq : 0 < sd / sqrt n) by now apply Rdiv_lt_0_compat.
  replace (z * sd / sqrt n) with (z * (sd / sqrt n)) by (field; lra).
  split; [split|split]; nra.
Qed.

Lemma confidence_interval_95_witness :
  exists l r,
    confidence_interval 10 2 100 (5 / 100) = Some (l, r) /\
    l < 10 < r /\
    195896 / 100000 * (2 / sqrt 100) < r - 10
      < 196096 / 100000 * (2 / sqrt 100).
Proof. apply (confidence_interval_95 10 2 100); lra. Defined.

(** With a positive standard deviation and a significance level below
    1, a larger sample gives an interval strictly inside the one of a
    smaller sample. *)
Theorem confidence_interval_narrows (m sd sig n1 n2 l1 r1 l2 r2 : R) :
  0 < sd -> sig < 1 -> n1 < n2 ->
  confidence_interval m sd n1 sig = Some (l1, r1) ->
  confidence_interval m sd n2 sig = Some (l2, r2) ->
  l1 < l2 /\ r2 < r1.
Proof.
  intros Hsd Hsig Hn H1 H2.
  apply confidence_interval_inv in H1, H2.
  destruct H1 as (Hn1 & z & Hz & -> & ->).
  destruct H2 as (Hn2 & z' & Hz' & -> & ->).
  assert (z' = z) by congruence. subst z'.
  assert (Hpos : 0 < z).
  { apply (QuantileFacts.ppf_lt_iff (/ 2) (1 - sig / 2) 0 z);
      [apply ppf_half | exact Hz | lra]. }
  assert (Hs1 : 0 < sqrt n1) by now apply sqrt_lt_R0.
  assert (Hs : sqrt n1 < sqrt n2) by (apply sqrt_lt_1; lra).
  assert (Hzs : 0 < z * sd) by now apply Rmult_lt_0_compat.
  assert (Hq : z * sd / sqrt n2 < z * sd / sqrt n1).
  { unfold Rdiv. apply Rmult_lt_compat_l; [exact Hzs|].
    apply Rinv_lt_contravar; [apply Rmult_lt_0_compat; lra | exact Hs]. }
  lra.
Qed.

Lemma confidence_interval_narrows_witness :
  exists l1 r1 l2 r2,
    confidence_interval 10 2 100 (5 / 100) = Some (l1, r1) /\
    confidence_interval 10 2 400 (5 / 100) = Some (l2, r2) /\
    l1 < l2 /\ r2 < r1.
Proof.
  destruct QuantileFacts.z_val_05 as (z & Hz & _).
  pose proof (confidence_interval_value 10 2 100 (5 / 100) z
                ltac:(lra) Hz) as E1.
  pose proof (confidence_interval_value 10 2 400 (5 / 100) z
                ltac:(lra) Hz) as E2.
  do 4 eexists. split; [exact E1|]. split; [exact E2|].
  apply (confidence_interval_narrows 10 2 (5 / 100) 100 400 _ _ _ _);
    [lra | lra | lra | exact E1 | exact E2].
Defined.

(** A lower significance level (a higher confidence) gives a strictly
    wider interval, for a positive standard deviation. *)
Theorem confidence_interval_widens (m sd n sig1 sig2 l1 r1 l2 r2 : R) :
  0 < sd -> sig1 < sig2 ->
  confidence_interval m sd n sig1 = Some (l1, r1) ->
  confidence_interval m sd n sig2 = Some (l2, r2) ->
  l1 < l2 /\ r2 < r1.
Proof.
  intros Hsd Hsig H1 H2.
  apply confidence_interval_inv in H1, H2.
  destruct H1 as (Hn & z1 & Hz1 & -> & ->).
  destruct H2 as (_ & z2 & Hz2 & -> & ->).
  assert (Hz : z2 < z1)
    by (apply (QuantileFacts.cdf_lt_iff z2 z1);
        apply cdf_ppf in Hz1, Hz2; lra).
  assert (Hs : 0 < sqrt n) by now apply sqrt_lt_R0.
  assert (Hq : 0 < sd / sqrt n) by now apply Rdiv_lt_0_compat.
  replace (z1 * sd / sqrt n) with (z1 * (sd / sqrt n)) by (field; lra).
  replace (z2 * sd / sqrt n) with (z2 * (sd / sqrt n)) by (field; lra).
  split; nra.
Qed.

Lemma confidence_interval_widens_witness :
  exists l1 r1 l2 r2,
    confidence_interval 10 2 100 (5 / 100) = Some (l1, r1) /\
    confidence_interval 10 2 100 (10 / 100) = Some (l2, r2) /\
    l1 < l2 /\ r2 < r1.
Proof.
  destruct QuantileFacts.z_val_05 as (z1 & Hz1 & _).
  destruct QuantileFacts.z_val_10 as (z2 & Hz2 & _).
  pose proof (confidence_interval_value 10 2 100 (5 / 100) z1
                ltac:(lra) Hz1) as E1.
  pose proof (confidence_interval_value 10 2 100 (10 / 100) z2
                ltac:(lra) Hz2) as E2.
  do 4 eexists. split; [exact E1|]. split; [exact E2|].
  apply (confidence_interval_widens 10 2 100 (5 / 100) (10 / 100) _ _ _ _);
    [lra | lra | exact E1 | exact E2].
Defined.

(** The bounds come out in order for a nonnegative standard deviation
    and a significance level up to 1, and reversed when the level
    exceeds 1 (the critical value is then negative): the code does not
    guard against it. *)
Theorem confidence_interval_order (m sd n sig l r : R) :
  confidence_interval m sd n sig = Some (l, r) ->
  (0 <= sd -> sig <= 1 -> l <= r) /\ (0 < sd -> 1 < sig -> r < l).
Proof.
  intros H. apply confidence_interval_inv in H.
  destruct H as (Hn & z & Hz & -> & ->).
  assert (Hs : 0 < sqrt n) by now apply sqrt_lt_R0.
  assert (Hi : 0 < / sqrt n) by now apply Rinv_0_lt_compat.
  unfold z_val in Hz. apply cdf_ppf in Hz.
  pose proof cdf_0 as H0.
  unfold Rdiv. split.
  - intros Hsd Hsig.
    assert (0 <= z).
    { destruct (Rle_lt_dec 0 z) as [L|L]; [exact L|].
      apply cdf_increasing in L. lra. }
    assert (0 <= z * sd) by now apply Rmult_le_pos.
    assert (0 <= z * sd * / sqrt n) by (apply Rmult_le_pos; lra).
    lra.
  - intros Hsd Hsig.
    assert (z < 0).
    { destruct (Rlt_le_dec z 0) as [L|[L|L]]; [exact L| |].
      - apply cdf_increasing in L. lra.
      - subst z. lra. }
    assert (0 < - z * sd) by (apply Rmult_lt_0_compat; lra).
    assert (0 < - z * sd * / sqrt n) by (apply Rmult_lt_0_compat; lra).
    lra.
Qed.

Lemma confidence_interval_order_witness :
  exists l r,
    confidence_interval 10 2 100 (5 / 100) = Some (l, r) /\ l <= r.
Proof.
  destruct QuantileFacts.z_val_05 as (z & Hz & _).
  pose proof (confidence_interval_value 10 2 100 (5 / 100) z
                ltac:(lra) Hz) as E.
  do 2 eexists. split; [exact E|].
  apply (proj1 (confidence_interval_order 10 2 100 (5 / 100) _ _ E)); lra.
Defined.

End IntervalFacts.

(** ** Pooled statistics *)

Module PooledFacts.

Import Normal Util UtilFacts.

(** For positive sample sizes the pooled probability lies between the
    success rates of the two samples. *)
Theorem pooled_prob_between (N_A N_B X_A X_B : R) :
  0 < N_A -> 0 < N_B ->
  exists p, pooled_prob N_A N_B X_A X_B = Some p /\
            Rmin (X_A / N_A) (X_B / N_B) <= p <= Rmax (X_A / N_A) (X_B / N_B).
Proof.
  intros HA HB. exists ((X_A + X_B) / (N_A + N_B)).
  split; [apply div_some; lra|].
  set (a := X_A / N_A). set (b := X_B / N_B).
  assert (EA : X_A = a * N_A) by (unfold a; field; lra).
  assert (EB : X_B = b * N_B) by (unfold b; field; lra).
  rewrite EA, EB.
  assert (Hi : 0 < / (N_A + N_B)) by (apply Rinv_0_lt_compat; lra).
  assert (Ea : (a * N_A + b * N_B) / (N_A + N_B) - a
               = (b - a) * (N_B * / (N_A + N_B))) by (field; lra).
  assert (Eb : b - (a * N_A + b * N_B) / (N_A + N_B)
               = (b - a) * (N_A * / (N_A + N_B))) by (field; lra).
  assert (WA : 0 < N_A * / (N_A + N_B)) by now apply Rmult_lt_0_compat.
  assert (WB : 0 < N_B * / (N_A + N_B)) by now apply Rmult_lt_0_compat.
  unfold Rmin, Rmax. destruct (Rle_dec a b) as [L|L]; split; nra.
Qed.

Lemma pooled_prob_between_witness :
  exists p, pooled_prob 1000 500 100 80 = Some p /\
            Rmin (100 / 1000) (80 / 500) <= p <= Rmax (100 / 1000) (80 / 500).
Proof. apply (pooled_prob_between 1000 500 100 80); lra. Defined.

Lemma pooled_SE_inv N_A N_B X_A X_B se :
  pooled_SE N_A N_B X_A X_B = Some se ->
  N_A + N_B <> 0 /\ N_A <> 0 /\ N_B <> 0 /\
  let p_hat := (X_A + X_B) / (N_A + N_B) in
  0 <= p_hat * (1 - p_hat) * (1 / N_A + 1 / N_B) /\
  se = sqrt (p_hat * (1 - p_hat) * (1 / N_A + 1 / N_B)).
Proof.
  unfold pooled_SE, pooled_prob, Py.div.
  destruct (Req_dec_T (N_A + N_B) 0) as [E|E]; [discriminate|].
  cbn [bind Monad_option].
  destruct (Req_dec_T N_A 0) as [EA|EA]; [discriminate|].
  destruct (Req_dec_T N_B 0) as [EB|EB]; [discriminate|].
  unfold Py.np_sqrt.
  destruct (Rlt_dec _ 0) as [L|L]; [discriminate|].
  intros [= <-]. split; [exact E|]. split; [exact EA|]. split; [exact EB|].
  cbv zeta. split; [lra | reflexivity].
Qed.

(** Whenever [pooled_SE] returns, neither sample size nor their sum
    was zero, and the standard error is nonnegative. *)
Theorem pooled_SE_nonneg (N_A N_B X_A X_B se : R) :
  pooled_SE N_A N_B X_A X_B = Some se ->
  0 <= se /\ N_A <> 0 /\ N_B <> 0 /\ N_A + N_B <> 0.
Proof.
  intros H. apply pooled_SE_inv in H.
  destruct H as (H1 & H2 & H3 & _ & ->).
  repeat split; auto. apply sqrt_pos.
Qed.

Lemma pooled_SE_nonneg_witness :
  exists se, pooled_SE 1000 500 100 80 = Some se /\ 0 <= se.
Proof.
  pose proof (pooled_SE_value 1000 500 100 80
                ltac:(lra) ltac:(lra) ltac:(lra) ltac:(lra)) as E.
  cbv zeta in E. eexists. split; [exact E|].
  apply (pooled_SE_nonneg 1000 500 100 80 _ E).
Defined.

(** For valid samples the pooled standard error vanishes exactly when
    the two samples together hold no success or nothing but
    successes. *)
Theorem pooled_SE_zero (N_A N_B X_A X_B : R) :
  0 < N_A -> 0 < N_B -> 0 <= X_A <= N_A -> 0 <= X_B <= N_B ->
  (pooled_SE N_A N_B X_A X_B = Some 0 <->
   X_A + X_B = 0 \/ X_A + X_B = N_A + N_B).
Proof.
  intros HA HB HXA HXB.
  rewrite (pooled_SE_value N_A N_B X_A X_B HA HB HXA HXB). cbv zeta.
  set (p := (X_A + X_B) / (N_A + N_B)).
  assert (Hp : 0 <= p <= 1) by (unfold p; apply ratio_unit; lra).
  assert (Hia : 0 < 1 / N_A) by (apply Rdiv_lt_0_compat; lra).
  assert (Hib : 0 < 1 / N_B) by (apply Rdiv_lt_0_compat; lra).
  assert (Hv : 0 <= p * (1 - p)) by (apply Rmult_le_pos; lra).
  assert (Hw : 0 <= p * (1 - p) * (1 / N_A + 1 / N_B))
    by (apply Rmult_le_pos; lra).
  assert (P0 : p = 0 <-> X_A + X_B = 0).
  { unfold p. split; intros E.
    - apply (f_equal (fun v => v * (N_A + N_B))) in E.
      replace ((X_A + X_B) / (N_A + N_B) * (N_A + N_B)) with (X_A + X_B)
        in E by (field; lra). lra.
    - rewrite E. unfold Rdiv. ring. }
  assert (P1 : p = 1 <-> X_A + X_B = N_A + N_B).
  { unfold p. split; intros E.
    - apply (f_equal (fun v => v * (N_A + N_B))) in E.
      replace ((X_A + X_B) / (N_A + N_B) * (N_A + N_B)) with (X_A + X_B)
        in E by (field; lra). lra.
    - rewrite E. field. lra. }
  split.
  - intros [= E]. apply sqrt_eq_0 in E; [|exact Hw].
    apply Rmult_integral in E. destruct E as [E|E]; [|lra].
    apply Rmult_integral in E. destruct E as [E|E].
    + left. now apply P0.
    + right. apply P1. lra.
  - intros [E|E]; f_equal.
    + apply P0 in E. rewrite E. rewrite !Rmult_0_l. apply sqrt_0.
    + apply P1 in E. rewrite E.
      replace (1 * (1 - 1) * (1 / N_A + 1 / N_B)) with 0 by ring.
      apply sqrt_0.
Qed.

Lemma pooled_SE_zero_witness :
  pooled_SE 1000 500 0 0 = Some 0.
Proof.
  apply (pooled_SE_zero 1000 500 0 0); lra.
Defined.

(** With positive sizes but a total of successes that is negative or
    exceeds the total size, the radicand is negative and [pooled_SE]
    has no value. *)
Theorem pooled_SE_out_of_range (N_A N_B X_A X_B : R) :
  0 < N_A -> 0 < N_B ->
  X_A + X_B < 0 \/ N_A + N_B < X_A + X_B ->
  pooled_SE N_A N_B X_A X_B = None.
Proof.
  intros HA HB HX.
  destruct (pooled_SE N_A N_B X_A X_B) as [se|] eqn:E; [|reflexivity].
  exfalso. apply pooled_SE_inv in E.
  destruct E as (_ & _ & _ & Hr & _). cbv zeta in Hr.
  set (p := (X_A + X_B) / (N_A + N_B)) in *.
  assert (Hi : 0 < / (N_A + N_B)) by (apply Rinv_0_lt_compat; lra).
  assert (Hia : 0 < 1 / N_A) by (apply Rdiv_lt_0_compat; lra).
  assert (Hib : 0 < 1 / N_B) by (apply Rdiv_lt_0_compat; lra).
  assert (Hp : p < 0 \/ 1 < p).
  { unfold p, Rdiv. destruct HX as [L|L]; [left|right].
    - assert (0 < - (X_A + X_B) * / (N_A + N_B))
        by (apply Rmult_lt_0_compat; lra). lra.
    - assert (0 < (X_A + X_B - (N_A + N_B)) * / (N_A + N_B))
        by (apply Rmult_lt_0_compat; lra).
      assert ((N_A + N_B) * / (N_A + N_B) = 1) by (apply Rinv_r; lra).
      lra. }
  assert (Hneg : 0 < - (p * (1 - p))).
  { destruct Hp as [L|L].
    - replace (- (p * (1 - p))) with (- p * (1 - p)) by ring.
      apply Rmult_lt_0_compat; lra.
    - replace (- (p * (1 - p))) with (p * (p - 1)) by ring.
      apply Rmult_lt_0_compat; lra. }
  assert (0 < - (p * (1 - p)) * (1 / N_A + 1 / N_B))
    by (apply Rmult_lt_0_compat; lra).
  lra.
Qed.

Lemma pooled_SE_out_of_range_witness :
  pooled_SE 100 100 150 120 = None.
Proof. apply (pooled_SE_out_of_range 100 100 150 120); lra. Defined.

End PooledFacts.

(** ** The p-value *)

Module TestFacts.

Import Normal Util UtilFacts NormalFacts.

Lemma p_val_inv N_A N_B p_A d p :
  p_val N_A N_B p_A d = Some p ->
  let vA := p_A * (1 - p_A) / N_A in
  let vB := (p_A + d) * (1 - (p_A + d)) / N_B in
  N_A <> 0 /\ N_B <> 0 /\ 0 <= vA /\ 0 <= vB /\ 0 < vA + vB /\
  p = sf (d / sqrt (vA + vB)).
Proof.
  intros H vA vB. unfold p_val, Py.div in H.
  destruct (Req_dec_T N_A 0) as [EA|EA]; [discriminate|].
  cbn [bind Monad_option] in H. fold vA in H.
  unfold Py.np_sqrt at 1 in H.
  destruct (Rlt_dec vA 0) as [LA|LA]; [discriminate|].
  destruct (Req_dec_T N_B 0) as [EB|EB]; [discriminate|].
  fold vB in H. unfold Py.np_sqrt at 1 in H.
  destruct (Rlt_dec vB 0) as [LB|LB]; [discriminate|].
  unfold Py.sq in H. rewrite !pow2_sqrt in H by lra.
  unfold Py.np_sqrt in H.
  destruct (Rlt_dec (vA + vB) 0) as [L|L]; [discriminate|].
  destruct (Req_dec_T (sqrt (vA + vB)) 0) as [E0|E0]; [discriminate|].
  cbn in H. injection H as <-.
  repeat split; try assumption; try lra.
  destruct (Rtotal_order 0 (vA + vB)) as [P|[P|P]]; [exact P| |lra].
  rewrite <- P, sqrt_0 in E0. contradiction.
Qed.

Lemma p_val_value N_A N_B p_A d :
  let vA := p_A * (1 - p_A) / N_A in
  let vB := (p_A + d) * (1 - (p_A + d)) / N_B in
  N_A <> 0 -> N_B <> 0 -> 0 <= vA -> 0 <= vB -> 0 < vA + vB ->
  p_val N_A N_B p_A d = Some (sf (d / sqrt (vA + vB))).
Proof.
  intros vA vB EA EB HA HB HS. unfold p_val.
  rewrite (div_some _ N_A) by exact EA. cbn [bind Monad_option].
  fold vA. rewrite (np_sqrt_some vA) by exact HA.
  rewrite (div_some _ N_B) by exact EB. fold vB.
  rewrite (np_sqrt_some vB) by exact HB.
  unfold Py.sq. rewrite !pow2_sqrt by assumption.
  rewrite np_sqrt_some by lra.
  apply sqrt_lt_R0 in HS. rewrite div_some by lra. reflexivity.
Qed.

Lemma p_val_value_side (N_A N_B p_A d p : R) :
  p_val N_A N_B p_A d = Some p ->
  (p < 1 / 2 <-> 0 < d) /\ (p = 1 / 2 <-> d = 0) /\ (1 / 2 < p <-> d < 0).
Proof.
  intros H. apply p_val_inv in H. cbv zeta in H.
  destruct H as (_ & _ & _ & _ & HS & ->).
  apply sqrt_lt_R0 in HS. set (s := sqrt _) in *.
  assert (Hi : 0 < / s) by now apply Rinv_0_lt_compat.
  pose proof sf_0 as S0.
  assert (Z : forall z, (sf z < 1 / 2 <-> 0 < z) /\ (1 / 2 < sf z <-> z < 0)).
  { intros z.
    pose proof (QuantileFacts.sf_lt_iff z 0) as A.
    pose proof (QuantileFacts.sf_lt_iff 0 z) as B.
    rewrite S0 in A, B.
    replace (1 / 2) with (/ 2) by lra. tauto. }
  destruct (Z (d / s)) as [Z1 Z2].
  assert (P : 0 < d / s <-> 0 < d).
  { unfold Rdiv. split; intros K.
    - destruct (Rlt_le_dec 0 d) as [L|L]; [exact L|].
      assert (0 <= - d * / s) by (apply Rmult_le_pos; lra). lra.
    - now apply Rmult_lt_0_compat. }
  assert (N : d / s < 0 <-> d < 0).
  { unfold Rdiv. split; intros K.
    - destruct (Rlt_le_dec d 0) as [L|L]; [exact L|].
      assert (0 <= d * / s) by (apply Rmult_le_pos; lra). lra.
    - assert (0 < - d * / s) by (apply Rmult_lt_0_compat; lra). lra. }
  split; [tauto|]. split; [|tauto].
  split; intros K.
  - destruct (Rtotal_order d 0) as [L|[L|L]]; [|exact L|].
    + apply N, Z2 in L. lra.
    + apply P, Z1 in L. lra.
  - subst d. unfold Rdiv. rewrite Rmult_0_l, S0. lra.
Qed.

Lemma p_val_rates N_A N_B p_A d :
  0 < N_A -> 0 < N_B -> 0 <= p_A <= 1 -> 0 <= p_A + d <= 1 ->
  0 < p_A < 1 \/ 0 < p_A + d < 1 ->
  let vA := p_A * (1 - p_A) / N_A in
  let vB := (p_A + d) * (1 - (p_A + d)) / N_B in
  0 <= vA /\ 0 <= vB /\ 0 < vA + vB.
Proof.
  intros HA HB Hp Hq Hnd vA vB.
  assert (IA : 0 < / N_A) by now apply Rinv_0_lt_compat.
  assert (IB : 0 < / N_B) by now apply Rinv_0_lt_compat.
  assert (WA : 0 <= p_A * (1 - p_A)) by (apply Rmult_le_pos; lra).
  assert (WB : 0 <= (p_A + d) * (1 - (p_A + d)))
    by (apply Rmult_le_pos; lra).
  assert (VA : 0 <= vA) by (unfold vA, Rdiv; apply Rmult_le_pos; lra).
  assert (VB : 0 <= vB) by (unfold vB, Rdiv; apply Rmult_le_pos; lra).
  split; [exact VA|]. split; [exact VB|].
  destruct Hnd as [H|H].
  - assert (0 < p_A * (1 - p_A)) by (apply Rmult_lt_0_compat; lra).
    assert (0 < vA) by (unfold vA, Rdiv; now apply Rmult_lt_0_compat).
    lra.
  - assert (0 < (p_A + d) * (1 - (p_A + d)))
      by (apply Rmult_lt_0_compat; lra).
    assert (0 < vB) by (unfold vB, Rdiv; now apply Rmult_lt_0_compat).
    lra.
Qed.

(** For positive group sizes and rates in the unit interval, not both
    equal to 0 or 1, the p-value is below one half exactly for a
    positive effect, one half exactly for a zero effect and above one
    half exactly for a negative effect. *)
Theorem p_val_side (N_A N_B p_A d : R) :
  0 < N_A -> 0 < N_B -> 0 <= p_A <= 1 -> 0 <= p_A + d <= 1 ->
  0 < p_A < 1 \/ 0 < p_A + d < 1 ->
  exists p,
    p_val N_A N_B p_A d = Some p /\
    (p < 1 / 2 <-> 0 < d) /\ (p = 1 / 2 <-> d = 0) /\ (1 / 2 < p <-> d < 0).
Proof.
  intros HA HB Hp Hq Hnd.
  destruct (p_val_rates N_A N_B p_A d HA HB Hp Hq Hnd) as (VA & VB & VS).
  pose proof (p_val_value N_A N_B p_A d) as E. cbv zeta in E.
  specialize (E ltac:(lra) ltac:(lra) VA VB VS).
  eexists. split; [exact E|].
  exact (p_val_value_side N_A N_B p_A d _ E).
Qed.

Lemma p_val_side_witness :
  exists p,
    p_val 1000 1000 (1 / 10) (1 / 50) = Some p /\
    (p < 1 / 2 <-> 0 < 1 / 50) /\ (p = 1 / 2 <-> 1 / 50 = 0) /\
    (1 / 2 < p <-> 1 / 50 < 0).
Proof.
  apply (p_val_side 1000 1000 (1 / 10) (1 / 50)); lra.
Defined.

(** Exchanging the roles of the two groups (the test rate becomes the
    baseline, the effect changes sign) gives the complementary
    p-value. *)
Theorem p_val_complement (N_A N_B p_A d p : R) :
  p_val N_A N_B p_A d = Some p ->
  p_val N_B N_A (p_A + d) (- d) = Some (1 - p).
Proof.
  intros H. apply p_val_inv in H. cbv zeta in H.
  destruct H as (EA & EB & HA & HB & HS & ->).
  pose proof (p_val_value N_B N_A (p_A + d) (- d)) as V. cbv zeta in V.
  replace (p_A + d + - d) with p_A in V by ring.
  rewrite V; try assumption; [|lra].
  rewrite <- QuantileFacts.sf_opp. do 2 f_equal.
  rewrite (Rplus_comm (p_A * (1 - p_A) / N_A)).
  unfold Rdiv. ring.
Qed.

Lemma p_val_complement_witness :
  exists p,
    p_val 1000 1000 (1 / 10) (1 / 50) = Some p /\
    p_val 1000 1000 (1 / 10 + 1 / 50) (- (1 / 50)) = Some (1 - p).
Proof.
  pose proof (p_val_value 1000 1000 (1 / 10) (1 / 50)) as E.
  cbv zeta in E.
  assert (E' := E ltac:(lra) ltac:(lra) ltac:(lra) ltac:(lra) ltac:(lra)).
  eexists. split; [exact E'|].
  apply (p_val_complement 1000 1000 (1 / 10) (1 / 50) _ E').
Defined.

Lemma p_val_more_data_strict (N_A N_B N_B' p_A d : R) :
  0 < N_A -> 0 < N_B < N_B' -> 0 <= p_A <= 1 -> 0 < p_A + d < 1 -> 0 < d ->
  exists p p',
    p_val N_A N_B p_A d = Some p /\ p_val N_A N_B' p_A d = Some p' /\
    p' < p.
Proof.
  intros HA [HB HB'] Hp Hq Hd.
  set (vA := p_A * (1 - p_A) / N_A).
  set (w := (p_A + d) * (1 - (p_A + d))).
  assert (Hw : 0 < w) by (apply Rmult_lt_0_compat; lra).
  assert (HvA : 0 <= vA).
  { unfold vA, Rdiv. apply Rmult_le_pos.
    - apply Rmult_le_pos; lra.
    - left. apply Rinv_0_lt_compat, HA. }
  assert (HvB : 0 < w / N_B) by (apply Rdiv_lt_0_compat; lra).
  assert (HvB' : 0 < w / N_B') by (apply Rdiv_lt_0_compat; lra).
  assert (Hlt : w / N_B' < w / N_B).
  { unfold Rdiv. apply Rmult_lt_compat_l; [exact Hw|].
    apply Rinv_lt_contravar; [apply Rmult_lt_0_compat; lra | lra]. }
  exists (sf (d / sqrt (vA + w / N_B))), (sf (d / sqrt (vA + w / N_B'))).
  split; [apply p_val_value; fold vA; fold w; lra|].
  split; [apply p_val_value; fold vA; fold w; lra|].
  apply QuantileFacts.sf_lt_iff.
  assert (S' : 0 < sqrt (vA + w / N_B')) by (apply sqrt_lt_R0; lra).
  assert (S : sqrt (vA + w / N_B') < sqrt (vA + w / N_B))
    by (apply sqrt_lt_1; lra).
  unfold Rdiv. apply Rmult_lt_compat_l; [exact Hd|].
  apply Rinv_lt_contravar; [apply Rmult_lt_0_compat; lra | exact S].
Qed.

(** For a positive effect, a positive control group, a baseline rate in
    the unit interval and a test rate strictly inside it, enlarging the
    test group never raises the p-value. *)
Theorem p_val_more_data (N_A N_B N_B' p_A d : R) :
  0 < N_A -> 0 < N_B <= N_B' -> 0 <= p_A <= 1 -> 0 < p_A + d < 1 -> 0 < d ->
  exists p p',
    p_val N_A N_B p_A d = Some p /\ p_val N_A N_B' p_A d = Some p' /\
    p' <= p.
Proof.
  intros HA [HB [HB'|HB']] Hp Hq Hd.
  - destruct (p_val_more_data_strict N_A N_B N_B' p_A d)
      as (p & p' & E & E' & L); try assumption; [lra|].
    exists p, p'. split; [exact E|]. split; [exact E'|]. lra.
  - subst N_B'.
    destruct (p_val_rates N_A N_B p_A d) as (VA & VB & VS);
      try assumption; try lra.
    pose proof (p_val_value N_A N_B p_A d) as E. cbv zeta in E.
    specialize (E ltac:(lra) ltac:(lra) VA VB VS).
    do 2 eexists. split; [exact E|]. split; [exact E|]. lra.
Qed.

Lemma p_val_more_data_witness :
  exists p p',
    p_val 1000 1000 (1 / 10) (1 / 50) = Some p /\
    p_val 1000 4000 (1 / 10) (1 / 50) = Some p' /\ p' <= p.
Proof.
  apply (p_val_more_data 1000 1000 4000 (1 / 10) (1 / 50)); lra.
Defined.

(** [p_val] has no value when the baseline rate is outside the unit
    interval for a positive control group (the variance is negative
    and its square root is [nan]), or when a zero effect meets a
    baseline rate of 0 or 1 (the z-score is 0/0). *)
Theorem p_val_undefined (N_A N_B p_A d : R) :
  (0 < N_A -> p_A < 0 \/ 1 < p_A -> p_val N_A N_B p_A d = None) /\
  (p_A = 0 \/ p_A = 1 -> p_val N_A N_B p_A 0 = None).
Proof.
  split.
  - intros HA Hp.
    destruct (p_val N_A N_B p_A d) as [p|] eqn:E; [|reflexivity].
    exfalso. apply p_val_inv in E. cbv zeta in E.
    destruct E as (_ & _ & HvA & _).
    assert (Hi : 0 < / N_A) by now apply Rinv_0_lt_compat.
    assert (0 < - (p_A * (1 - p_A))).
    { destruct Hp as [L|L].
      - replace (- (p_A * (1 - p_A))) with (- p_A * (1 - p_A)) by ring.
        apply Rmult_lt_0_compat; lra.
      - replace (- (p_A * (1 - p_A))) with (p_A * (p_A - 1)) by ring.
        apply Rmult_lt_0_compat; lra. }
    assert (0 < - (p_A * (1 - p_A)) * / N_A)
      by now apply Rmult_lt_0_compat.
    unfold Rdiv in HvA. lra.
  - intros Hp.
    destruct (p_val N_A N_B p_A 0) as [p|] eqn:E; [|reflexivity].
    exfalso. apply p_val_inv in E. cbv zeta in E.
    destruct E as (_ & _ & _ & _ & HS & _).
    rewrite Rplus_0_r in HS.
    assert (Z : p_A * (1 - p_A) = 0) by (destruct Hp; subst; ring).
    rewrite Z in HS. unfold Rdiv in HS. rewrite !Rmult_0_l in HS. lra.
Qed.

Lemma p_val_undefined_witness :
  p_val 1000 1000 (3 / 2) (1 / 50) = None /\
  p_val 1000 1000 1 0 = None.
Proof.
  split.
  - apply (proj1 (p_val_undefined 1000 1000 (3 / 2) (1 / 50))); lra.
  - apply (proj2 (p_val_undefined 1000 1000 1 0)). right. reflexivity.
Defined.

End TestFacts.

(** ** The sample-size planner *)

Module PlannerFacts.

Import Normal Util UtilFacts NormalFacts.

Lemma min_sample_size_inv bcr mde power sig_level n :
  min_sample_size bcr mde power sig_level = Some n ->
  mde <> 0 /\
  exists Z_beta Z_alpha,
    ppf power = Some Z_beta /\ ppf (1 - sig_level / 2) = Some Z_alpha /\
    n = 2 * ((bcr + bcr + mde) / 2) * (1 - (bcr + bcr + mde) / 2)
        * (Z_beta + Z_alpha) ^ 2 / mde ^ 2.
Proof.
  unfold min_sample_size.
  destruct (ppf power) as [zb|]; [|discriminate].
  destruct (ppf (1 - sig_level / 2)) as [za|]; [|discriminate].
  cbn [bind Monad_option]. unfold Py.div, Py.sq.
  destruct (Req_dec_T (mde ^ 2) 0) as [E|E]; [discriminate|].
  intros [= <-]. split.
  - intros ->. apply E. ring.
  - exists zb, za. auto.
Qed.

Lemma planner_factor_pos bcr mde :
  0 < bcr < 1 -> 0 < bcr + mde < 1 -> mde <> 0 ->
  0 < 2 * ((bcr + bcr + mde) / 2) * (1 - (bcr + bcr + mde) / 2) / mde ^ 2.
Proof.
  intros Hb Hm Hmde.
  assert (0 < mde ^ 2).
  { rewrite <- Rsqr_pow2. now apply Rsqr_pos_lt. }
  apply Rdiv_lt_0_compat; [|assumption].
  apply Rmult_lt_0_compat; [apply Rmult_lt_0_compat|]; lra.
Qed.

Lemma quantile_nonneg p z : ppf p = Some z -> / 2 <= p -> 0 <= z.
Proof.
  intros E Hp. apply cdf_ppf in E.
  destruct (Rle_lt_dec 0 z) as [L|L]; [exact L|].
  apply cdf_increasing in L. rewrite cdf_0 in L. lra.
Qed.

(** Whenever the planner returns, the effect was not zero; and for a
    baseline rate and a test rate in the unit interval the sample size
    is nonnegative. *)
Theorem min_sample_size_nonneg (bcr mde power sig_level n : R) :
  min_sample_size bcr mde power sig_level = Some n ->
  mde <> 0 /\ (0 <= bcr <= 1 -> 0 <= bcr + mde <= 1 -> 0 <= n).
Proof.
  intros H. apply min_sample_size_inv in H.
  destruct H as (Hmde & zb & za & _ & _ & ->). split; [exact Hmde|].
  intros Hb Hm.
  assert (0 < mde ^ 2).
  { rewrite <- Rsqr_pow2. now apply Rsqr_pos_lt. }
  assert (0 <= (zb + za) ^ 2) by (rewrite <- Rsqr_pow2; apply Rle_0_sqr).
  unfold Rdiv at 3. apply Rmult_le_pos.
  - apply Rmult_le_pos; [apply Rmult_le_pos|]; lra.
  - left. now apply Rinv_0_lt_compat.
Qed.

Lemma min_sample_size_nonneg_witness :
  exists n,
    min_sample_size (1 / 10) (1 / 50) (4 / 5) (5 / 100) = Some n /\ 0 <= n.
Proof.
  destruct ppf_800 as (zb & Eb & _).
  destruct ppf_975 as (za & Ea & _).
  assert (Ea' : ppf (1 - 5 / 100 / 2) = Some za).
  { replace (1 - 5 / 100 / 2) with (975 / 1000) by lra. exact Ea. }
  pose proof (min_sample_size_value (1 / 10) (1 / 50) _ _ _ _
                ltac:(lra) Eb Ea') as E.
  eexists. split; [exact E|].
  apply (proj2 (min_sample_size_nonneg _ _ _ _ _ E)); lra.
Defined.

(** With rates strictly inside the unit interval, a significance level
    of at most 1 and a power of at least one half, asking for more power
    asks for strictly more samples. *)
Theorem min_sample_size_more_power
  (bcr mde power1 power2 sig_level n1 n2 : R) :
  0 < bcr < 1 -> 0 < bcr + mde < 1 ->
  / 2 <= power1 < power2 -> sig_level <= 1 ->
  min_sample_size bcr mde power1 sig_level = Some n1 ->
  min_sample_size bcr mde power2 sig_level = Some n2 ->
  n1 < n2.
Proof.
  intros Hb Hm [Hp1 Hp] Hs H1 H2.
  apply min_sample_size_inv in H1, H2.
  destruct H1 as (Hmde & zb1 & za & Eb1 & Ea & ->).
  destruct H2 as (_ & zb2 & za' & Eb2 & Ea' & ->).
  assert (za' = za) by congruence. subst za'.
  pose proof (planner_factor_pos bcr mde Hb Hm Hmde) as C.
  set (c := 2 * ((bcr + bcr + mde) / 2) * (1 - (bcr + bcr + mde) / 2)) in *.
  pose proof (quantile_nonneg _ _ Eb1 Hp1) as Hz1.
  pose proof (quantile_nonneg _ _ Ea ltac:(lra)) as Hza.
  assert (Hz : zb1 < zb2)
    by (apply (QuantileFacts.ppf_lt_iff _ _ _ _ Eb1 Eb2), Hp).
  assert (Q : (zb1 + za) ^ 2 < (zb2 + za) ^ 2) by nra.
  replace (c * (zb1 + za) ^ 2 / mde ^ 2)
    with (c / mde ^ 2 * (zb1 + za) ^ 2) by (field; exact Hmde).
  replace (c * (zb2 + za) ^ 2 / mde ^ 2)
    with (c / mde ^ 2 * (zb2 + za) ^ 2) by (field; exact Hmde).
  now apply Rmult_lt_compat_l.
Qed.

Lemma min_sample_size_more_power_witness :
  exists n1 n2,
    min_sample_size (1 / 10) (1 / 50) (1 / 2) (5 / 100) = Some n1 /\
    min_sample_size (1 / 10) (1 / 50) (4 / 5) (5 / 100) = Some n2 /\
    n1 < n2.
Proof.
  destruct ppf_975 as (za & Ea & _).
  destruct ppf_800 as (zb & Eb & _).
  assert (Ea' : ppf (1 - 5 / 100 / 2) = Some za).
  { replace (1 - 5 / 100 / 2) with (975 / 1000) by lra. exact Ea. }
  assert (Eh : ppf (1 / 2) = Some 0).
  { replace (1 / 2) with (/ 2) by lra. apply ppf_half. }
  pose proof (min_sample_size_value (1 / 10) (1 / 50) _ _ _ _
                ltac:(lra) Eh Ea') as E1.
  pose proof (min_sample_size_value (1 / 10) (1 / 50) _ _ _ _
                ltac:(lra) Eb Ea') as E2.
  do 2 eexists. split; [exact E1|]. split; [exact E2|].
  apply (min_sample_size_more_power (1 / 10) (1 / 50) (1 / 2) (4 / 5)
           (5 / 100) _ _); [lra | lra | lra | lra | exact E1 | exact E2].
Defined.

(** Under the same conditions, a stricter (smaller) significance level
    asks for strictly more samples. *)
Theorem min_sample_size_stricter_level
  (bcr mde power sig1 sig2 n1 n2 : R) :
  0 < bcr < 1 -> 0 < bcr + mde < 1 ->
  / 2 <= power -> sig1 < sig2 <= 1 ->
  min_sample_size bcr mde power sig1 = Some n1 ->
  min_sample_size bcr mde power sig2 = Some n2 ->
  n2 < n1.
Proof.
  intros Hb Hm Hp [Hs Hs2] H1 H2.
  apply min_sample_size_inv in H1, H2.
  destruct H1 as (Hmde & zb & za1 & Eb & Ea1 & ->).
  destruct H2 as (_ & zb' & za2 & Eb' & Ea2 & ->).
  assert (zb' = zb) by congruence. subst zb'.
  pose proof (planner_factor_pos bcr mde Hb Hm Hmde) as C.
  set (c := 2 * ((bcr + bcr + mde) / 2) * (1 - (bcr + bcr + mde) / 2)) in *.
  pose proof (quantile_nonneg _ _ Eb Hp) as Hzb.
  pose proof (quantile_nonneg _ _ Ea2 ltac:(lra)) as Hza.
  assert (Hz : za2 < za1)
    by (apply (QuantileFacts.ppf_lt_iff _ _ _ _ Ea2 Ea1); lra).
  assert (Q : (zb + za2) ^ 2 < (zb + za1) ^ 2) by nra.
  replace (c * (zb + za1) ^ 2 / mde ^ 2)
    with (c / mde ^ 2 * (zb + za1) ^ 2) by (field; exact Hmde).
  replace (c * (zb + za2) ^ 2 / mde ^ 2)
    with (c / mde ^ 2 * (zb + za2) ^ 2) by (field; exact Hmde).
  now apply Rmult_lt_compat_l.
Qed.

Lemma min_sample_size_stricter_level_witness :
  exists n1 n2,
    min_sample_size (1 / 10) (1 / 50) (4 / 5) (5 / 100) = Some n1 /\
    min_sample_size (1 / 10) (1 / 50) (4 / 5) (10 / 100) = Some n2 /\
    n2 < n1.
Proof.
  destruct ppf_975 as (za1 & Ea1 & _).
  destruct ppf_950 as (za2 & Ea2 & _).
  destruct ppf_800 as (zb & Eb & _).
  assert (Ea1' : ppf (1 - 5 / 100 / 2) = Some za1).
  { replace (1 - 5 / 100 / 2) with (975 / 1000) by lra. exact Ea1. }
  assert (Ea2' : ppf (1 - 10 / 100 / 2) = Some za2).
  { replace (1 - 10 / 100 / 2) with (95 / 100) by lra. exact Ea2. }
  pose proof (min_sample_size_value (1 / 10) (1 / 50) _ _ _ _
                ltac:(lra) Eb Ea1') as E1.
  pose proof (min_sample_size_value (1 / 10) (1 / 50) _ _ _ _
                ltac:(lra) Eb Ea2') as E2.
  do 2 eexists. split; [exact E1|]. split; [exact E2|].
  apply (min_sample_size_stricter_level (1 / 10) (1 / 50) (4 / 5)
           (5 / 100) (10 / 100) _ _);
    [lra | lra | lra | lra | exact E1 | exact E2].
Defined.

End PlannerFacts.

(** ** The trial-series synthesizer: composition and edge cases *)

Module SeriesMore.

Import Series SeriesFacts.
Local Open Scope Z_scope.

Lemma series_loop_acc pairs :
  forall acc t,
    runState (series_loop pairs acc) t
    = (acc ++ fst (runState (series_loop pairs []) t),
       snd (runState (series_loop pairs []) t)).
Proof.
  induction pairs as [|[e s] rest IH]; intros acc t.
  - cbn. now rewrite app_nil_r.
  - rewrite !run_series_loop_cons. cbv zeta.
    set (r := runState (shuffle _) t).
    rewrite (IH (acc ++ fst r)), (IH ([] ++ fst r)). cbn [app fst snd].
    now rewrite app_assoc.
Qed.

Lemma series_loop_app p1 :
  forall p2 acc t,
    runState (series_loop (p1 ++ p2) acc) t
    = runState (series_loop p2 (fst (runState (series_loop p1 acc) t)))
               (snd (runState (series_loop p1 acc) t)).
Proof.
  induction p1 as [|[e s] rest IH]; intros p2 acc t.
  - reflexivity.
  - cbn [app]. rewrite !run_series_loop_cons. cbv zeta. apply IH.
Qed.

Lemma combine_app_eq (e1 e2 s1 s2 : list Z) :
  length e1 = length s1 ->
  combine (e1 ++ e2) (s1 ++ s2) = combine e1 s1 ++ combine e2 s2.
Proof.
  revert s1. induction e1 as [|a e1 IH]; intros [|b s1] H;
    cbn in *; try discriminate; [reflexivity|].
  f_equal. apply IH. lia.
Qed.

(** Synthesizing the periods of two experiments in one call gives the
    series of the first followed by the series of the second, the
    second drawing from the generator where the first left it. *)
Theorem get_bernouli_series_app (e1 e2 s1 s2 : list Z) (t : tape) :
  length e1 = length s1 ->
  let r1 := runState (get_bernouli_series e1 s1) t in
  let r2 := runState (get_bernouli_series e2 s2) (snd r1) in
  runState (get_bernouli_series (e1 ++ e2) (s1 ++ s2)) t
  = (fst r1 ++ fst r2, snd r2).
Proof.
  intros Hlen r1 r2. unfold get_bernouli_series in *.
  rewrite combine_app_eq by exact Hlen.
  rewrite series_loop_app, series_loop_acc. reflexivity.
Qed.

Lemma get_bernouli_series_app_witness :
  runState (get_bernouli_series ([3; 2] ++ [4]) ([1; 2] ++ [2])) [5; 1; 7; 2]%nat
  = (fst (runState (get_bernouli_series [3; 2] [1; 2]) [5; 1; 7; 2]%nat)
     ++ fst (runState (get_bernouli_series [4] [2])
               (snd (runState (get_bernouli_series [3; 2] [1; 2])
                       [5; 1; 7; 2]%nat))),
     snd (runState (get_bernouli_series [4] [2])
            (snd (runState (get_bernouli_series [3; 2] [1; 2])
                    [5; 1; 7; 2]%nat)))).
Proof.
  apply (get_bernouli_series_app [3; 2] [4] [1; 2] [2] [5; 1; 7; 2]%nat).
  reflexivity.
Defined.

Lemma zeros_app x y : zeros (x ++ y) = zeros x + zeros y.
Proof. unfold zeros. rewrite count_occ_app. lia. Qed.

Lemma zeros_Permutation x y : Permutation x y -> zeros x = zeros y.
Proof.
  intros H. unfold zeros. f_equal.
  now apply (Permutation_count_occ Z.eq_dec).
Qed.

Lemma counts_period_block es :
  ones (period_block es) = Z.max 0 (snd es) /\
  zeros (period_block es) = Z.max 0 (fst es - snd es).
Proof.
  unfold period_block, list_mul. rewrite ones_app, zeros_app.
  unfold ones, zeros.
  rewrite (count_occ_repeat_eq Z.eq_dec) by reflexivity.
  rewrite (count_occ_repeat_neq Z.eq_dec) by discriminate.
  rewrite (count_occ_repeat_neq Z.eq_dec) by discriminate.
  rewrite (count_occ_repeat_eq Z.eq_dec) by reflexivity.
  lia.
Qed.

Lemma periods_counts bl pairs :
  shuffled_periods bl pairs ->
  ones (concat bl) = zsum (map (fun es => Z.max 0 (snd es)) pairs) /\
  zeros (concat bl)
    = zsum (map (fun es => Z.max 0 (fst es - snd es)) pairs).
Proof.
  induction 1 as [|b es bl' pairs' Hb _ IH]; cbn; [split; reflexivity|].
  destruct IH as [IH1 IH2]. destruct (counts_period_block es) as [C1 C2].
  rewrite ones_app, zeros_app, IH1, IH2.
  rewrite <- (ones_Permutation _ _ Hb), <- (zeros_Permutation _ _ Hb).
  rewrite C1, C2. split; reflexivity.
Qed.

Lemma length_ones_zeros l :
  Forall (fun v => v = 0 \/ v = 1) l ->
  Z.of_nat (length l) = ones l + zeros l.
Proof.
  unfold ones, zeros. induction 1 as [|v l [-> | ->] _ IH];
    [reflexivity | |].
  - rewrite (count_occ_cons_neq Z.eq_dec l (x := 0) (y := 1)) by discriminate.
    rewrite (count_occ_cons_eq Z.eq_dec l (x := 0) (y := 0)) by reflexivity.
    cbn [length]. lia.
  - rewrite (count_occ_cons_eq Z.eq_dec l (x := 1) (y := 1)) by reflexivity.
    rewrite (count_occ_cons_neq Z.eq_dec l (x := 1) (y := 0)) by discriminate.
    cbn [length]. lia.
Qed.

(** Whatever the counts and the draws, each processed period
    contributes [max 0 success] ones and [max 0 (engagement - success)]
    zeros: a negative count contributes nothing, and a period with more
    successes than engagements is as long as its successes. *)
Theorem get_bernouli_series_general (e s : list Z) (t : tape) :
  let out := evalState (get_bernouli_series e s) t in
  let pairs := combine e s in
  ones out = zsum (map (fun es => Z.max 0 (snd es)) pairs) /\
  zeros out = zsum (map (fun es => Z.max 0 (fst es - snd es)) pairs) /\
  Z.of_nat (length out) = ones out + zeros out.
Proof.
  intros out pairs.
  destruct (series_loop_blocks pairs [] t) as (bl & E & Hbl).
  assert (Eout : out = concat bl) by exact E. clearbody out. subst out.
  destruct (periods_counts _ _ Hbl) as [H1 H2].
  split; [exact H1|]. split; [exact H2|].
  apply length_ones_zeros. now apply periods_bits with (pairs := pairs).
Qed.

(** When every processed period holds no success or no failure, the
    series does not depend on the random draws: it is the periods'
    runs of zeros or ones, in order. *)
Theorem get_bernouli_series_constant_periods (e s : list Z) (t : tape) :
  Forall (fun es => snd es <= 0 \/ fst es <= snd es) (combine e s) ->
  evalState (get_bernouli_series e s) t
  = concat (map period_block (combine e s)).
Proof.
  intros Hc.
  destruct (series_loop_blocks (combine e s) [] t) as (bl & E & Hbl).
  unfold evalState, get_bernouli_series. rewrite E. cbn [app]. f_equal.
  clear E. induction Hbl as [|b es bl' pairs' Hb _ IH]; [reflexivity|].
  inversion Hc as [|? ? Hes Hrest]; subst. cbn [map]. f_equal.
  - symmetry in Hb. unfold period_block, list_mul in *.
    destruct Hes as [Hs|Hs].
    + replace (Z.to_nat (snd es)) with 0%nat in * by lia. cbn [repeat app] in *.
      now apply Permutation_repeat.
    + replace (Z.to_nat (fst es - snd es)) with 0%nat in * by lia.
      cbn [repeat] in *. rewrite app_nil_r in *.
      now apply Permutation_repeat.
  - now apply IH.
Qed.

Lemma get_bernouli_series_constant_periods_witness :
  evalState (get_bernouli_series [3; 2] [0; 2]) [4; 1; 3]%nat
  = concat (map period_block (combine [3; 2] [0; 2])).
Proof.
  apply (get_bernouli_series_constant_periods [3; 2] [0; 2] [4; 1; 3]%nat).
  repeat constructor; cbn; lia.
Defined.

Lemma zsum_map_add (A : Type) (f g : A -> Z) (l : list A) :
  zsum (map (fun x => f x + g x) l) = zsum (map f l) + zsum (map g l).
Proof.
  unfold zsum. induction l as [|x l IH]; cbn; [reflexivity|].
  rewrite IH. lia.
Qed.

(** C10 as stated fails: with engagement counts [[2; 5]] and success
    counts [[5]] the one processed period has more successes than
    engagements, and the series has 5 entries, not the 2 engagements of
    that period. *)
Lemma get_bernouli_series_length_counterexample :
  Z.of_nat (length (evalState (get_bernouli_series [2; 5] [5])
                              [3; 1; 4]%nat)) = 5 /\
  zsum (firstn (Nat.min (length [2; 5]) (length [5])) [2; 5]) = 2.
Proof. split; reflexivity. Qed.

(** C10, amended: when the two count lists differ in length nothing
    fails: the loop runs over the first
    [min (len engagment_list) (len success_list)] index pairs only, and
    the series holds [max 0 success + max 0 (engagement - success)]
    entries for each of those pairs, which is the sum of their
    engagement counts when [0 <= success <= engagement] in each of
    them. *)
Theorem get_bernouli_series_zip_truncation (e s : list Z) (t : tape) :
  let n := Nat.min (length e) (length s) in
  let out := evalState (get_bernouli_series e s) t in
  get_bernouli_series e s
    = get_bernouli_series (firstn n e) (firstn n s) /\
  Z.of_nat (length out)
    = zsum (map (fun es => Z.max 0 (snd es) + Z.max 0 (fst es - snd es))
                (combine (firstn n e) (firstn n s))) /\
  (Forall valid_period (combine e s) ->
   Z.of_nat (length out) = zsum (firstn n e)).
Proof.
  intros n out.
  destruct (series_loop_blocks (combine e s) [] t) as (bl & E & Hbl).
  assert (Eout : out = concat bl) by exact E. clearbody out. subst out.
  split; [|split].
  - unfold get_bernouli_series. now rewrite (combine_truncate e s).
  - subst n. rewrite <- (combine_truncate e s).
    destruct (periods_counts _ _ Hbl) as [H1 H2].
    rewrite zsum_map_add, <- H1, <- H2.
    apply length_ones_zeros. now apply periods_bits with (pairs := combine e s).
  - intros Hv. rewrite (periods_length _ _ Hbl Hv).
    now rewrite map_fst_combine.
Qed.

Lemma get_bernouli_series_zip_truncation_witness :
  get_bernouli_series [4; 2; 5] [1; 2]
    = get_bernouli_series [4; 2] [1; 2] /\
  Z.of_nat (length (evalState (get_bernouli_series [4; 2; 5] [1; 2])
                              [7; 0; 2]%nat)) = 6.
Proof.
  destruct (get_bernouli_series_zip_truncation [4; 2; 5] [1; 2] [7; 0; 2]%nat)
    as (H1 & _ & H3).
  split; [exact H1|].
  apply H3. repeat constructor; cbn; lia.
Defined.

End SeriesMore.
